(** * Checkers next-move engine: move generation, move application,
      evaluation and alpha-beta search of [main.py].

    The board is the Python list of lists of integers of the source; cell
    values are the integers 0..4 (0 empty, 1 red man, 2 black man, 3 red
    king, 4 black king).  List indexing follows Python: a negative index
    counts from the end and an index out of range raises [IndexError].
    Scores are Python integers or one of the two floats [-inf], [inf]. *)

From Stdlib Require Import ZArith Lia String Sorted.
From stdpp Require Import base list.

Local Open Scope Z_scope.

(** * Part I: the program *)

(** ** Results of fallible code *)

Inductive result (A : Type) : Type :=
| Ok (a : A)
| IndexError
| RecursionError.

Arguments Ok {A} a.
Arguments IndexError {A}.
Arguments RecursionError {A}.

Definition bind {A B : Type} (k : A -> result B) (m : result A) : result B :=
  match m with
  | Ok a => k a
  | IndexError => IndexError
  | RecursionError => RecursionError
  end.

#[global] Instance result_bind : MBind result := @bind.
#[global] Instance result_ret : MRet result := @Ok.

Definition of_option {A : Type} (o : option A) : result A :=
  match o with
  | Some a => Ok a
  | None => IndexError
  end.

(** [for x in xs: acc = body(acc, x)] with exceptions propagating. *)
Fixpoint for_each {A S : Type} (xs : list A) (body : S -> A -> result S)
    (acc : S) : result S :=
  match xs with
  | [] => Ok acc
  | x :: rest => acc' ← body acc x; for_each rest body acc'
  end.

(** Short-circuit [and]: the right operand is only consulted when the left
    one is true, so an exception in it only surfaces in that case. *)
Definition and_then (a : bool) (b : result bool) : result bool :=
  if a then b else Ok false.

(** ** Python list indexing *)

Definition norm_index (len : nat) (i : Z) : option nat :=
  if 0 <=? i then
    (if i <? Z.of_nat len then Some (Z.to_nat i) else None)
  else
    (if - Z.of_nat len <=? i then Some (Z.to_nat (Z.of_nat len + i)) else None).

(** [l[i]] *)
Definition py_index {A : Type} (l : list A) (i : Z) : result A :=
  match norm_index (length l) i with
  | Some n => of_option (l !! n)
  | None => IndexError
  end.

(** [l[i] = v] *)
Definition py_setitem {A : Type} (l : list A) (i : Z) (v : A) : result (list A) :=
  match norm_index (length l) i with
  | Some n => Ok (<[n := v]> l)
  | None => IndexError
  end.

(** ** Board representation *)

Abbreviation cell := Z (only parsing).
Abbreviation row := (list cell) (only parsing).
Abbreviation board := (list row) (only parsing).
Abbreviation square := (Z * Z)%type (only parsing).
Abbreviation move := (square * square)%type (only parsing).

Definition initial_board : board :=
  [ [3;0;0;0;0;0;0;0];
    [0;0;0;0;0;0;0;3];
    [3;0;3;0;3;0;0;0];
    [0;0;0;0;0;0;0;4];
    [0;0;4;0;4;0;0;0];
    [0;0;0;0;0;0;0;0];
    [0;0;0;0;0;0;0;0];
    [0;0;0;0;0;0;0;0] ].

(** [board[r][c]] *)
Definition getcell (b : board) (r c : Z) : result cell :=
  rw ← py_index b r; py_index rw c.

(** [board[r][c] = v] on a board whose rows are not shared. *)
Definition setcell (b : board) (r c : Z) (v : cell) : result board :=
  rw ← py_index b r;
  rw' ← py_setitem rw c v;
  py_setitem b r rw'.

(** [range(8)] *)
Definition range8 : list Z := [0; 1; 2; 3; 4; 5; 6; 7].

(** [0 <= x < 8] *)
Definition in_range (x : Z) : bool := (0 <=? x) && (x <? 8).

(** ** Move generation *)

Definition is_red (p : cell) : bool := (p =? 1) || (p =? 3).
Definition is_black (p : cell) : bool := (p =? 2) || (p =? 4).

Definition same_color (piece_a piece_b : cell) : bool :=
  if is_red piece_a && is_red piece_b then true
  else if is_black piece_a && is_black piece_b then true
  else false.

Definition directions (piece : cell) : list (Z * Z) :=
  if piece =? 1 then [(-1, -1); (-1, 1)]
  else if piece =? 2 then [(1, -1); (1, 1)]
  else if piece =? 3 then [(-1, -1); (-1, 1); (1, -1); (1, 1)]
  else if piece =? 4 then [(-1, -1); (-1, 1); (1, -1); (1, 1)]
  else [].

(** The two tests of the loop body of [possible_moves_for_piece]. *)
Definition step_test (b : board) (new_r new_c : Z) : result bool :=
  and_then (in_range new_r && in_range new_c)
    (x ← getcell b new_r new_c; Ok (x =? 0)).

Definition jump_test (b : board) (piece : cell) (new_r new_c jump_r jump_c : Z)
    : result bool :=
  and_then (in_range jump_r && in_range jump_c)
    (m ← getcell b new_r new_c;
     and_then (negb (m =? 0))
       (j ← getcell b jump_r jump_c;
        and_then (j =? 0) (Ok (negb (same_color piece m))))).

Definition moves_in_direction (b : board) (piece : cell) (r c : Z)
    (moves : list move) (d : Z * Z) : result (list move) :=
  let '(dr, dc) := d in
  let new_r := r + dr in
  let new_c := c + dc in
  st ← step_test b new_r new_c;
  let moves := if (st : bool) then moves ++ [((r, c), (new_r, new_c))] else moves in
  let jump_r := r + 2 * dr in
  let jump_c := c + 2 * dc in
  jt ← jump_test b piece new_r new_c jump_r jump_c;
  Ok (if (jt : bool) then moves ++ [((r, c), (jump_r, jump_c))] else moves).

Definition possible_moves_for_piece (b : board) (r c : Z) : result (list move) :=
  piece ← getcell b r c;
  for_each (directions piece) (moves_in_direction b piece r c) [].

(** Whether the piece belongs to the side, as tested in [get_all_moves]. *)
Definition owned_by (side : string) (piece : cell) : bool :=
  if (side =? "red")%string && is_red piece then true
  else if (side =? "black")%string && is_black piece then true
  else false.

(** The two branches of the test in the loop body extend [moves] in the
    same way, so they are one branch here. *)
Definition get_all_moves (b : board) (side : string) : result (list move) :=
  for_each range8 (fun moves r =>
    for_each range8 (fun moves c =>
      piece ← getcell b r c;
      if owned_by side piece then
        ms ← possible_moves_for_piece b r c; Ok (moves ++ ms)
      else Ok moves) moves) [].

(** ** Applying a move

    [new_board] is the copy [[row[:] for row in board]]: as a value it is
    the board itself, and no row of it is shared.  The same function over
    row objects in a heap, where the copy matters, is [heap_apply_move]. *)

Definition apply_move (b : board) (mv : move) : result board :=
  let '((r1, c1), (r2, c2)) := mv in
  let new_board := b in
  piece ← getcell new_board r1 c1;
  new_board ← setcell new_board r1 c1 0;
  new_board ← setcell new_board r2 c2 piece;
  new_board ←
    (if Z.abs (r2 - r1) =? 2 then
       let jumped_r := (r1 + r2) / 2 in
       let jumped_c := (c1 + c2) / 2 in
       setcell new_board jumped_r jumped_c 0
     else Ok new_board);
  if (piece =? 1) && (r2 =? 0) then setcell new_board r2 c2 3
  else if (piece =? 2) && (r2 =? 7) then setcell new_board r2 c2 4
  else Ok new_board.

(** ** Evaluation *)

Definition evaluate (b : board) : result Z :=
  for_each range8 (fun score r =>
    for_each range8 (fun score c =>
      p ← getcell b r c;
      Ok (if p =? 1 then score + 5
          else if p =? 3 then score + 8
          else if p =? 2 then score - 5
          else if p =? 4 then score - 8
          else score)) score) 0.

(** ** Scores

    A score is a Python integer or one of the floats [float('-inf')],
    [float('inf')]; the search only compares scores and takes [max] and
    [min] of them. *)

Inductive score : Type :=
| NegInf
| Fin (z : Z)
| PosInf.

(** [a < b] *)
Definition score_ltb (a b : score) : bool :=
  match a, b with
  | NegInf, NegInf => false
  | NegInf, _ => true
  | Fin x, Fin y => x <? y
  | Fin _, PosInf => true
  | Fin _, NegInf => false
  | PosInf, _ => false
  end.

(** [a <= b] *)
Definition score_leb (a b : score) : bool :=
  match a, b with
  | NegInf, _ => true
  | Fin x, Fin y => x <=? y
  | Fin _, PosInf => true
  | Fin _, NegInf => false
  | PosInf, PosInf => true
  | PosInf, _ => false
  end.

(** [max(a, b)] and [min(a, b)]: the first argument wins a tie. *)
Definition score_max (a b : score) : score := if score_ltb a b then b else a.
Definition score_min (a b : score) : score := if score_ltb b a then b else a.

(** ** Alpha-beta search *)

Abbreviation search_result := (score * option move)%type (only parsing).

Section Loops.
(** The recursive call [alpha_beta(new_b, depth-1, alpha, beta, _)]. *)
Variable rec : board -> Z -> score -> score -> bool -> result search_result.
Variables (b : board) (depth : Z).

(** The [for mv in moves] loop of the maximizing branch; the loop state is
    [value], [best_move] and [alpha]. *)
Fixpoint max_loop (beta : score) (moves : list move)
    (value : score) (best_move : option move) (alpha : score)
    : result search_result :=
  match moves with
  | [] => Ok (value, best_move)
  | mv :: rest =>
      new_b ← apply_move b mv;
      cr ← rec new_b (depth - 1) alpha beta false;
      let child_val := fst (cr : search_result) in
      let improved := score_ltb value child_val in
      let value := if improved then child_val else value in
      let best_move := if improved then Some mv else best_move in
      let alpha := score_max alpha value in
      if score_leb beta alpha then Ok (value, best_move)
      else max_loop beta rest value best_move alpha
  end.

(** The loop of the minimizing branch; the loop state is [value],
    [best_move] and [beta]. *)
Fixpoint min_loop (alpha : score) (moves : list move)
    (value : score) (best_move : option move) (beta : score)
    : result search_result :=
  match moves with
  | [] => Ok (value, best_move)
  | mv :: rest =>
      new_b ← apply_move b mv;
      cr ← rec new_b (depth - 1) alpha beta true;
      let child_val := fst (cr : search_result) in
      let improved := score_ltb child_val value in
      let value := if improved then child_val else value in
      let best_move := if improved then Some mv else best_move in
      let beta := score_min beta value in
      if score_leb beta alpha then Ok (value, best_move)
      else min_loop alpha rest value best_move beta
  end.
End Loops.

(** [fuel] bounds the depth of the Python call stack; the two cases of the
    match on [moves] are [if not moves] and the rest of the body. *)
Fixpoint alpha_beta (fuel : nat) (b : board) (depth : Z) (alpha beta : score)
    (maximizing_player : bool) : result search_result :=
  match fuel with
  | O => RecursionError
  | S fuel' =>
      if depth =? 0 then
        s ← evaluate b; Ok (Fin s, None)
      else
        let side := if maximizing_player then "red"%string else "black"%string in
        moves ← get_all_moves b side;
        match moves with
        | [] => Ok (if maximizing_player then NegInf else PosInf, None)
        | _ :: _ =>
            if maximizing_player then
              max_loop (alpha_beta fuel') b depth beta moves NegInf None alpha
            else
              min_loop (alpha_beta fuel') b depth alpha moves PosInf None beta
        end
  end.

Definition find_best_move (fuel : nat) (b : board) (side : string) (depth : Z)
    : result (option move) :=
  let maximizing := if (side =? "red")%string then true else false in
  r ← alpha_beta fuel b depth NegInf PosInf maximizing;
  Ok (snd (r : search_result)).

(** ** [apply_move] on the Python heap

    A board is a list object holding references to row objects, and a row
    may be shared.  [apply_move] copies every row ([row[:]]) into a fresh
    object and only writes to the copies.  The heap is the list of row
    objects, an address is an index into it, and a board object is the list
    of the addresses of its rows. *)

Abbreviation heap := (list row) (only parsing).
Abbreviation board_ref := (list nat) (only parsing).

(** The row object at an address. *)
Definition deref (h : heap) (a : nat) : row := default [] (h !! a).

(** The board a reference denotes in a heap. *)
Definition view (h : heap) (bo : board_ref) : board := map (deref h) bo.

Definition valid_refs (h : heap) (bo : board_ref) : Prop :=
  Forall (fun a => (a < length h)%nat) bo.

(** [[row[:] for row in board]]: each copy is allocated at the end of the
    heap. *)
Fixpoint copy_rows (h : heap) (bo : board_ref) : heap * board_ref :=
  match bo with
  | [] => (h, [])
  | a :: rest =>
      let '(h', nb) := copy_rows (h ++ [deref h a]) rest in
      (h', length h :: nb)
  end.

(** [board[r][c]] *)
Definition heap_getcell (h : heap) (bo : board_ref) (r c : Z) : result cell :=
  a ← py_index bo r; py_index (deref h (a : nat)) c.

(** [board[r][c] = v]: the row object is updated in place. *)
Definition heap_setcell (h : heap) (bo : board_ref) (r c : Z) (v : cell)
    : result heap :=
  a ← py_index bo r;
  rw' ← py_setitem (deref h (a : nat)) c v;
  Ok (<[(a : nat) := (rw' : row)]> h).

Definition heap_apply_move (h : heap) (bo : board_ref) (mv : move)
    : result (heap * board_ref) :=
  let '((r1, c1), (r2, c2)) := mv in
  let '(h, new_board) := copy_rows h bo in
  piece ← heap_getcell h new_board r1 c1;
  h ← heap_setcell h new_board r1 c1 0;
  h ← heap_setcell h new_board r2 c2 piece;
  h ←
    (if Z.abs (r2 - r1) =? 2 then
       let jumped_r := (r1 + r2) / 2 in
       let jumped_c := (c1 + c2) / 2 in
       heap_setcell h new_board jumped_r jumped_c 0
     else Ok h);
  h ←
    (if (piece =? 1) && (r2 =? 0) then heap_setcell h new_board r2 c2 3
     else if (piece =? 2) && (r2 =? 7) then heap_setcell h new_board r2 c2 4
     else Ok h);
  Ok (h, new_board).

(** ** Drawing

    [CheckersGUI.draw_board] and [CheckersGUI.highlight_move] only call the
    canvas; the canvas is the list of the items created, in the order of
    the calls, each with the arguments of its call. *)

Inductive canvas_item : Type :=
| FilledRectangle (x1 y1 x2 y2 : Z) (fill : string)
| OutlinedRectangle (x1 y1 x2 y2 : Z) (outline : string) (width : Z)
| Oval (x1 y1 x2 y2 : Z) (fill : string)
| Text (x y : Z) (text fill : string) (font : string * Z * string).

(** [self.cell_size] *)
Definition cell_size : Z := 60.

(** The square of a cell, created before the cell is read. *)
Definition draw_square (r c : Z) : canvas_item :=
  let color := if (r + c) mod 2 =? 0 then "black"%string else "#B22222"%string in
  let x1 := c * cell_size in
  let y1 := r * cell_size in
  let x2 := x1 + cell_size in
  let y2 := y1 + cell_size in
  FilledRectangle x1 y1 x2 y2 color.

(** The disc of a piece and the mark of a king. *)
Definition draw_piece (r c : Z) (piece : cell) : list canvas_item :=
  let x1 := c * cell_size in
  let y1 := r * cell_size in
  if negb (piece =? 0) then
    let px := x1 + cell_size / 2 in
    let py := y1 + cell_size / 2 in
    let radius := cell_size / 2 - 5 in
    let fill_col := if is_red piece then "red"%string else "gray"%string in
    Oval (px - radius) (py - radius) (px + radius) (py + radius) fill_col ::
    (if (piece =? 3) || (piece =? 4)
     then [Text px py "K" "white" ("Arial"%string, 14, "bold"%string)]
     else [])
  else [].

Definition draw_board (b : board) (canvas : list canvas_item)
    : result (list canvas_item) :=
  for_each range8 (fun canvas r =>
    for_each range8 (fun canvas c =>
      let canvas := canvas ++ [draw_square r c] in
      piece ← getcell b r c;
      Ok (canvas ++ draw_piece r c piece)) canvas) canvas.

Definition highlight_move (mv : move) (canvas : list canvas_item)
    : list canvas_item :=
  let '((r1, c1), (r2, c2)) := mv in
  fold_left (fun canvas (sq : Z * Z) =>
    let '(rr, cc) := sq in
    let x1 := cc * cell_size in
    let y1 := rr * cell_size in
    let x2 := x1 + cell_size in
    let y2 := y1 + cell_size in
    canvas ++ [OutlinedRectangle x1 y1 x2 y2 "yellow" 3])
    [(r1, c1); (r2, c2)] canvas.

(** * Part II: the vocabulary of the properties *)

(** ** Unpruned minimax, the reference the pruning search is compared with

    The same game tree (same [get_all_moves], [apply_move], [evaluate], same
    terminal cases), every child visited, no window. *)

Section PlainLoops.
Variable rec : board -> Z -> bool -> result score.
Variables (b : board) (depth : Z).

Fixpoint minimax_max (moves : list move) (value : score) : result score :=
  match moves with
  | [] => Ok value
  | mv :: rest =>
      new_b ← apply_move b mv;
      child_val ← rec new_b (depth - 1) false;
      minimax_max rest (score_max value child_val)
  end.

Fixpoint minimax_min (moves : list move) (value : score) : result score :=
  match moves with
  | [] => Ok value
  | mv :: rest =>
      new_b ← apply_move b mv;
      child_val ← rec new_b (depth - 1) true;
      minimax_min rest (score_min value child_val)
  end.
End PlainLoops.

Fixpoint minimax (fuel : nat) (b : board) (depth : Z) (maximizing_player : bool)
    : result score :=
  match fuel with
  | O => RecursionError
  | S fuel' =>
      if depth =? 0 then
        s ← evaluate b; Ok (Fin s)
      else
        let side := if maximizing_player then "red"%string else "black"%string in
        moves ← get_all_moves b side;
        match moves with
        | [] => Ok (if maximizing_player then NegInf else PosInf)
        | _ :: _ =>
            if maximizing_player then
              minimax_max (minimax fuel') b depth moves NegInf
            else
              minimax_min (minimax fuel') b depth moves PosInf
        end
  end.

(** ** Unpruned search that also returns the move

    Plain minimax with the bookkeeping of [alpha_beta] for the move: the
    first move whose score strictly improves on the best so far is kept.
    No window, every child visited; the children are scored by [minimax]. *)

Section PlainMoveLoops.
Variable rec : board -> Z -> bool -> result score.
Variables (b : board) (depth : Z).

Fixpoint plain_max (moves : list move) (value : score) (best_move : option move)
    : result search_result :=
  match moves with
  | [] => Ok (value, best_move)
  | mv :: rest =>
      new_b ← apply_move b mv;
      child_val ← rec new_b (depth - 1) false;
      let improved := score_ltb value (child_val : score) in
      plain_max rest (if improved then child_val else value)
        (if improved then Some mv else best_move)
  end.

Fixpoint plain_min (moves : list move) (value : score) (best_move : option move)
    : result search_result :=
  match moves with
  | [] => Ok (value, best_move)
  | mv :: rest =>
      new_b ← apply_move b mv;
      child_val ← rec new_b (depth - 1) true;
      let improved := score_ltb (child_val : score) value in
      plain_min rest (if improved then child_val else value)
        (if improved then Some mv else best_move)
  end.
End PlainMoveLoops.

Definition plain_search (fuel : nat) (b : board) (depth : Z) (maximizing_player : bool)
    : result search_result :=
  match fuel with
  | O => RecursionError
  | S fuel' =>
      if depth =? 0 then
        s ← evaluate b; Ok (Fin s, None)
      else
        let side := if maximizing_player then "red"%string else "black"%string in
        moves ← get_all_moves b side;
        match moves with
        | [] => Ok (if maximizing_player then NegInf else PosInf, None)
        | _ :: _ =>
            if maximizing_player then
              plain_max (minimax fuel') b depth moves NegInf None
            else
              plain_min (minimax fuel') b depth moves PosInf None
        end
  end.

(** ** Well-formed boards and total reads *)

Definition valid_tag (p : cell) : bool := (0 <=? p) && (p <=? 4).

(** Eight rows of eight cells. *)
Definition shape_ok (b : board) : bool :=
  (length b =? 8)%nat && forallb (fun rw : row => (length rw =? 8)%nat) b.

Definition tags_ok (b : board) : bool := forallb (forallb valid_tag) b.

Definition wf_board (b : board) : Prop :=
  shape_ok b = true /\ tags_ok b = true.

Definition on_board (r c : Z) : Prop := 0 <= r < 8 /\ 0 <= c < 8.

(** The cell at an on-board square. *)
Definition cell_at (b : board) (r c : Z) : cell :=
  default 0 (rw ← b !! Z.to_nat r; (rw : row) !! Z.to_nat c).

(** The board with one on-board cell replaced. *)
Definition set_at (b : board) (r c : Z) (v : cell) : board :=
  alter (fun rw : row => <[Z.to_nat c := v]> rw) (Z.to_nat r) b.

(** ** What [apply_move] builds on a board of the right shape *)

(** A man reaching the far row is crowned. *)
Definition crowned (piece : cell) (r2 : Z) : cell :=
  if (piece =? 1) && (r2 =? 0) then 3
  else if (piece =? 2) && (r2 =? 7) then 4
  else piece.

Definition is_jump (mv : move) : bool :=
  Z.abs (fst (snd mv) - fst (fst mv)) =? 2.

Definition midpoint (mv : move) : square :=
  ((fst (fst mv) + fst (snd mv)) / 2, (snd (fst mv) + snd (snd mv)) / 2).

Definition move_on_board (mv : move) : Prop :=
  on_board (fst (fst mv)) (snd (fst mv)) /\
  on_board (fst (snd mv)) (snd (snd mv)).

(** The board [apply_move] builds when no index is out of range. *)
Definition moved_board (b : board) (mv : move) : board :=
  let '((r1, c1), (r2, c2)) := mv in
  let piece := cell_at b r1 c1 in
  let nb := set_at (set_at b r1 c1 0) r2 c2 piece in
  let nb := if is_jump mv
            then set_at nb (fst (midpoint mv)) (snd (midpoint mv)) 0
            else nb in
  if (piece =? 1) && (r2 =? 0) then set_at nb r2 c2 3
  else if (piece =? 2) && (r2 =? 7) then set_at nb r2 c2 4
  else nb.

(** ** What the move generator returns on a board of the right shape *)

Definition step_ok (b : board) (new_r new_c : Z) : bool :=
  in_range new_r && in_range new_c && (cell_at b new_r new_c =? 0).

Definition jump_ok (b : board) (piece : cell) (new_r new_c jump_r jump_c : Z) : bool :=
  in_range jump_r && in_range jump_c &&
  negb (cell_at b new_r new_c =? 0) &&
  (cell_at b jump_r jump_c =? 0) &&
  negb (same_color piece (cell_at b new_r new_c)).

(** The moves one direction contributes: the step, then the jump. *)
Definition direction_moves (b : board) (piece : cell) (r c : Z) (d : Z * Z)
    : list move :=
  (if step_ok b (r + fst d) (c + snd d)
   then [((r, c), (r + fst d, c + snd d))] else []) ++
  (if jump_ok b piece (r + fst d) (c + snd d) (r + 2 * fst d) (c + 2 * snd d)
   then [((r, c), (r + 2 * fst d, c + 2 * snd d))] else []).

Definition piece_moves (b : board) (r c : Z) : list move :=
  flat_map (direction_moves b (cell_at b r c) r c) (directions (cell_at b r c)).

Definition all_moves (b : board) (side : string) : list move :=
  flat_map (fun r =>
    flat_map (fun c =>
      if owned_by side (cell_at b r c) then piece_moves b r c else [])
      range8) range8.

Definition unit_step (x : Z) : Prop := x = -1 \/ x = 1.

(** ** Legal steps and jumps, as the rules state them *)

Definition friendly (side : string) (p : cell) : Prop :=
  (side = "red"%string /\ (p = 1 \/ p = 3)) \/
  (side = "black"%string /\ (p = 2 \/ p = 4)).

Definition opposing (side : string) (p : cell) : Prop :=
  (side = "red"%string /\ (p = 2 \/ p = 4)) \/
  (side = "black"%string /\ (p = 1 \/ p = 3)).

(** Red men move up the board, black men down, kings both ways. *)
Definition direction_set (p : cell) (dr dc : Z) : Prop :=
  (p = 1 /\ dr = -1 /\ unit_step dc) \/
  (p = 2 /\ dr = 1 /\ unit_step dc) \/
  ((p = 3 \/ p = 4) /\ unit_step dr /\ unit_step dc).

Definition step_legal (b : board) (side : string) (r c dr dc : Z) : Prop :=
  on_board r c /\ friendly side (cell_at b r c) /\
  direction_set (cell_at b r c) dr dc /\
  on_board (r + dr) (c + dc) /\ cell_at b (r + dr) (c + dc) = 0.

Definition jump_legal (b : board) (side : string) (r c dr dc : Z) : Prop :=
  on_board r c /\ friendly side (cell_at b r c) /\
  direction_set (cell_at b r c) dr dc /\
  on_board (r + dr) (c + dc) /\ opposing side (cell_at b (r + dr) (c + dc)) /\
  on_board (r + 2 * dr) (c + 2 * dc) /\ cell_at b (r + 2 * dr) (c + 2 * dc) = 0.

(** ** The order of scores and search windows *)

Definition score_lt (a b : score) : Prop := score_ltb a b = true.
Definition score_le (a b : score) : Prop := score_leb a b = true.

(** What a search with window [(alpha, beta)] may return when the plain
    minimax value is [v]: the value itself inside the window, a bound on the
    proper side outside. *)
Definition within (alpha beta v v' : score) : Prop :=
  (score_le v' alpha -> score_le v v') /\
  (score_le beta v' -> score_le v' v) /\
  (score_lt alpha v' -> score_lt v' beta -> v' = v).

(** The order of scores is the lexicographic order of these two keys, which
    lets [lia] decide comparisons between scores. *)
Definition score_tag (s : score) : Z :=
  match s with NegInf => -1 | Fin _ => 0 | PosInf => 1 end.

Definition score_key (s : score) : Z :=
  match s with Fin z => z | _ => 0 end.

(** The loop invariant between the running minimax value [u] and the
    running alpha-beta value [w] of a maximizing node entered with
    [alpha0]: [w] bounds [u] from above and is exact once it exceeds
    [alpha0].  Dually for a minimizing node entered with [beta0]. *)
Definition max_inv (alpha0 u w : score) : Prop :=
  score_le u w /\ (score_lt alpha0 w -> u = w).

Definition min_inv (beta0 u w : score) : Prop :=
  score_le w u /\ (score_lt w beta0 -> u = w).

(** ** Sums over the cells of a board *)

Definition row_sum (f : cell -> Z) (rw : row) : Z :=
  foldr (fun p acc => f p + acc) 0 rw.

Definition board_sum (f : cell -> Z) (b : board) : Z :=
  foldr (fun rw acc => row_sum f rw + acc) 0 b.

(** The contribution of one cell to the evaluation. *)
Definition piece_value (p : cell) : Z :=
  if p =? 1 then 5
  else if p =? 3 then 8
  else if p =? 2 then -5
  else if p =? 4 then -8
  else 0.

Definition material (b : board) : Z := board_sum piece_value b.

(** Numbers of red pieces, black pieces and occupied cells. *)
Definition red_count (b : board) : Z :=
  board_sum (fun p => if is_red p then 1 else 0) b.
Definition black_count (b : board) : Z :=
  board_sum (fun p => if is_black p then 1 else 0) b.
Definition occupied (b : board) : Z :=
  board_sum (fun p => if p =? 0 then 0 else 1) b.

Definition nonempty (p : cell) : Z := if p =? 0 then 0 else 1.

(** ** Concrete positions *)

Definition empty_row : row := replicate 8 0.
Definition empty_board : board := replicate 8 empty_row.

Definition crowded_board : board := replicate 8 (replicate 8 3).

(** A lost position for Red: the only red man must step next to a black man
    that then captures it. *)
Definition forced_loss_board : board :=
  <[7%nat := <[0%nat := 1]> empty_row]>
    (<[5%nat := <[2%nat := 2]> empty_row]> empty_board).

(** A red man on (3,3) with a black man on (2,2) in front of it. *)
Definition jump_board : board :=
  <[3%nat := <[3%nat := 1]> empty_row]>
    (<[2%nat := <[2%nat := 2]> empty_row]> empty_board).

(** A red man on (1,1), one step from its crowning row. *)
Definition crown_board : board :=
  <[1%nat := <[1%nat := 1]> empty_row]> empty_board.

(** ** The vocabulary of the further properties *)

Definition is_sentinel (v : score) : Prop := v = NegInf \/ v = PosInf.

(** Python accepts the indices -8..7 on a list of length 8. *)
Definition index_ok (x : Z) : Prop := -8 <= x < 8.

(** The position a Python index denotes on a list of length 8. *)
Definition wrap8 (x : Z) : Z := if x <? 0 then x + 8 else x.

(** A computation that raises nothing but [IndexError]. *)
Definition index_only {A : Type} (m : result A) : Prop := m <> RecursionError.

Definition too_small (b : board) : Prop :=
  (length b < 8)%nat \/
  exists (r : nat) (rw : row), (r < 8)%nat /\ b !! r = Some rw /\ (length rw < 8)%nat.

(** The rank of a direction in the scan: up-left, up-right, down-left,
    down-right. *)
Definition dir_index (dr dc : Z) : Z :=
  (if 0 <? dr then 2 else 0) + (if 0 <? dc then 1 else 0).

(** The rank of a move in the scan: origin in row-major order, then the
    direction, then step before jump. *)
Definition move_key (mv : move) : Z :=
  let '((r, c), (r', c')) := mv in
  (((r * 8 + c) * 4 + dir_index (r' - r) (c' - c)) * 2)
  + (if Z.abs (r' - r) =? 2 then 1 else 0).

Definition keys (ms : list move) : list Z := map move_key ms.

Definition direction_lo (r c : Z) (d : Z * Z) : Z :=
  ((r * 8 + c) * 4 + dir_index (fst d) (snd d)) * 2.

(** Everything [draw_board] adds for one cell. *)
Definition cell_items (b : board) (r c : Z) : list canvas_item :=
  draw_square r c :: draw_piece r c (cell_at b r c).

Definition board_items (b : board) : list canvas_item :=
  flat_map (fun r => flat_map (fun c => cell_items b r c) range8) range8.

Definition is_square (i : canvas_item) : bool :=
  match i with FilledRectangle _ _ _ _ _ => true | _ => false end.
Definition is_disc (i : canvas_item) : bool :=
  match i with Oval _ _ _ _ _ => true | _ => false end.
Definition is_mark (i : canvas_item) : bool :=
  match i with Text _ _ _ _ _ => true | _ => false end.

(** The number of items of a kind. *)
Definition count_items (P : canvas_item -> bool) (l : list canvas_item) : Z :=
  Z.of_nat (length (List.filter P l)).

Definition king_count (b : board) : Z :=
  board_sum (fun p => if (p =? 3) || (p =? 4) then 1 else 0) b.

(** The board with the two sides exchanged. *)
Definition swap_color (p : cell) : cell :=
  if p =? 1 then 2 else if p =? 2 then 1
  else if p =? 3 then 4 else if p =? 4 then 3 else p.

Definition swap_board (b : board) : board := map (map swap_color) b.

Definition score_in_range (v : score) : Prop :=
  is_sentinel v \/ exists s, v = Fin s /\ Z.abs s <= 8 * 64.

(** * Part III: proofs *)

(** ** Reads and writes on boards of the right shape *)

Lemma in_range_spec x : in_range x = true <-> 0 <= x < 8.
Proof. unfold in_range. rewrite andb_true_iff, Z.leb_le, Z.ltb_lt. done. Qed.

Lemma norm_index_in_range len i :
  0 <= i < Z.of_nat len -> norm_index len i = Some (Z.to_nat i).
Proof.
  intros H. unfold norm_index.
  destruct (Z.leb_spec 0 i); [|lia].
  destruct (Z.ltb_spec i (Z.of_nat len)); [done|lia].
Qed.

Lemma shape_ok_length b : shape_ok b = true -> length b = 8%nat.
Proof. unfold shape_ok. intros H. apply andb_prop in H as [H _]. by apply Nat.eqb_eq. Qed.

Lemma shape_ok_row b n rw :
  shape_ok b = true -> b !! n = Some rw -> length rw = 8%nat.
Proof.
  unfold shape_ok. intros H Hl. apply andb_prop in H as [_ H].
  rewrite forallb_forall in H. apply Nat.eqb_eq, H.
  apply list_elem_of_In, list_elem_of_lookup. eauto.
Qed.

Lemma shape_ok_lookup b r :
  shape_ok b = true -> 0 <= r < 8 ->
  exists rw, b !! Z.to_nat r = Some rw /\ length rw = 8%nat.
Proof.
  intros Hs Hr. pose proof (shape_ok_length b Hs) as Hlen.
  destruct (b !! Z.to_nat r) as [rw|] eqn:E.
  - exists rw. split; [done|]. eauto using shape_ok_row.
  - apply lookup_ge_None in E. lia.
Qed.

Lemma getcell_ok b r c :
  shape_ok b = true -> on_board r c -> getcell b r c = Ok (cell_at b r c).
Proof.
  intros Hs [Hr Hc].
  destruct (shape_ok_lookup b r Hs Hr) as (rw & Hrw & Hlen).
  unfold getcell, cell_at, py_index.
  rewrite norm_index_in_range by (rewrite (shape_ok_length b Hs); lia).
  rewrite Hrw. simpl.
  rewrite norm_index_in_range by lia.
  destruct (rw !! Z.to_nat c) eqn:E; [done|].
  apply lookup_ge_None in E. lia.
Qed.

Lemma setcell_ok b r c v :
  shape_ok b = true -> on_board r c -> setcell b r c v = Ok (set_at b r c v).
Proof.
  intros Hs [Hr Hc].
  destruct (shape_ok_lookup b r Hs Hr) as (rw & Hrw & Hlen).
  unfold setcell, set_at, py_index, py_setitem.
  rewrite norm_index_in_range by (rewrite (shape_ok_length b Hs); lia).
  rewrite Hrw. simpl.
  rewrite norm_index_in_range by lia. simpl.
  f_equal. apply list_eq. intros n.
  destruct (decide (n = Z.to_nat r)) as [->|Hne].
  - rewrite list_lookup_insert_eq by (apply lookup_lt_Some in Hrw; lia).
    rewrite list_lookup_alter_eq, Hrw. done.
  - rewrite list_lookup_insert_ne by done.
    rewrite list_lookup_alter_ne by done. done.
Qed.

Lemma forallb_true_Forall {A : Type} (f : A -> bool) (l : list A) :
  forallb f l = true <-> Forall (fun x => f x = true) l.
Proof.
  induction l as [|x l IH]; simpl.
  - split; [constructor | done].
  - rewrite andb_true_iff, IH. split.
    + intros [? ?]. by constructor.
    + inversion 1; auto.
Qed.

Lemma shape_ok_spec b :
  shape_ok b = true <->
  length b = 8%nat /\ Forall (fun rw : row => length rw = 8%nat) b.
Proof.
  unfold shape_ok. rewrite andb_true_iff, Nat.eqb_eq, forallb_true_Forall.
  split; intros [H1 H2]; (split; [done|]);
    (eapply Forall_impl; [exact H2|]); intros rw; simpl; apply Nat.eqb_eq.
Qed.

Lemma tags_ok_spec b :
  tags_ok b = true <->
  Forall (fun rw : row => Forall (fun p => valid_tag p = true) rw) b.
Proof.
  unfold tags_ok. rewrite forallb_true_Forall.
  split; intros H; (eapply Forall_impl; [exact H|]); intros rw; simpl;
    apply forallb_true_Forall.
Qed.

Lemma set_at_shape b r c v :
  shape_ok b = true -> shape_ok (set_at b r c v) = true.
Proof.
  rewrite !shape_ok_spec. intros [Hl Hf]. unfold set_at. split.
  - by rewrite length_alter.
  - apply Forall_alter; [done|]. intros rw _ Hrw. by rewrite length_insert.
Qed.

Lemma set_at_tags b r c v :
  tags_ok b = true -> valid_tag v = true -> tags_ok (set_at b r c v) = true.
Proof.
  rewrite !tags_ok_spec. intros Hf Hv. unfold set_at.
  apply Forall_alter; [done|]. intros rw _ Hrw. by apply Forall_insert.
Qed.

Lemma cell_at_set_at_eq b r c v :
  shape_ok b = true -> on_board r c -> cell_at (set_at b r c v) r c = v.
Proof.
  intros Hs [Hr Hc].
  destruct (shape_ok_lookup b r Hs Hr) as (rw & Hrw & Hlen).
  unfold cell_at, set_at. rewrite list_lookup_alter_eq, Hrw. simpl.
  rewrite list_lookup_insert_eq by lia. done.
Qed.

Lemma cell_at_set_at_ne b r c v r' c' :
  on_board r c -> on_board r' c' -> (r, c) <> (r', c') ->
  cell_at (set_at b r c v) r' c' = cell_at b r' c'.
Proof.
  intros [Hr Hc] [Hr' Hc'] Hne. unfold cell_at, set_at.
  destruct (decide (Z.to_nat r = Z.to_nat r')) as [E|E].
  - assert (r = r') as <- by lia.
    rewrite list_lookup_alter_eq.
    destruct (b !! Z.to_nat r) as [rw|]; [simpl|done].
    rewrite list_lookup_insert_ne; [done|]. intros E'.
    apply Hne. f_equal. lia.
  - by rewrite list_lookup_alter_ne.
Qed.

Lemma cell_at_set_at b r c v r' c' :
  shape_ok b = true -> on_board r c -> on_board r' c' ->
  cell_at (set_at b r c v) r' c' =
  if decide ((r, c) = (r', c')) then v else cell_at b r' c'.
Proof.
  intros Hs H H'. case_decide as E.
  - inversion E; subst. by apply cell_at_set_at_eq.
  - by apply cell_at_set_at_ne.
Qed.

Lemma cell_at_valid b r c :
  wf_board b -> on_board r c -> 0 <= cell_at b r c <= 4.
Proof.
  intros [Hs Ht] [Hr Hc].
  destruct (shape_ok_lookup b r Hs Hr) as (rw & Hrw & Hlen).
  unfold cell_at. rewrite Hrw. simpl.
  destruct (rw !! Z.to_nat c) as [p|] eqn:E; simpl; [|lia].
  apply tags_ok_spec in Ht.
  rewrite Forall_lookup in Ht. specialize (Ht _ _ Hrw).
  rewrite Forall_lookup in Ht. specialize (Ht _ _ E).
  unfold valid_tag in Ht. lia.
Qed.

(** ** [apply_move] on a board of the right shape *)

Lemma midpoint_on_board mv :
  move_on_board mv -> is_jump mv = true ->
  on_board (fst (midpoint mv)) (snd (midpoint mv)).
Proof.
  destruct mv as [[r1 c1] [r2 c2]]. unfold move_on_board, is_jump, midpoint, on_board.
  simpl. intros [[? ?] [? ?]] Hj. apply Z.eqb_eq in Hj.
  repeat split; try (apply Z.div_pos; lia);
    try (apply Z.div_lt_upper_bound; lia).
Qed.

Lemma apply_move_ok b mv :
  shape_ok b = true -> move_on_board mv ->
  apply_move b mv = Ok (moved_board b mv).
Proof.
  intros Hs Hmv. pose proof (midpoint_on_board mv Hmv) as Hmid.
  destruct mv as [[r1 c1] [r2 c2]]. destruct Hmv as [Ho Hd]. simpl in Ho, Hd.
  unfold apply_move, moved_board.
  rewrite getcell_ok by done. simpl.
  rewrite setcell_ok by done. simpl.
  rewrite setcell_ok by auto using set_at_shape. simpl.
  unfold is_jump in *. simpl fst in *. simpl snd in *.
  set (piece := cell_at b r1 c1).
  set (nb := set_at (set_at b r1 c1 0) r2 c2 piece).
  assert (shape_ok nb = true) as Hnb by (subst nb; auto using set_at_shape).
  destruct (Z.abs (r2 - r1) =? 2) eqn:Hj.
  - rewrite setcell_ok by auto. simpl.
    destruct ((piece =? 1) && (r2 =? 0)); [|destruct ((piece =? 2) && (r2 =? 7))];
      try done; apply setcell_ok; auto using set_at_shape.
  - simpl.
    destruct ((piece =? 1) && (r2 =? 0)); [|destruct ((piece =? 2) && (r2 =? 7))];
      try done; apply setcell_ok; auto using set_at_shape.
Qed.

Lemma set_at_length b r c v : length (set_at b r c v) = length b.
Proof. unfold set_at. by rewrite length_alter. Qed.

Lemma moved_board_length b mv : length (moved_board b mv) = length b.
Proof.
  destruct mv as [[r1 c1] [r2 c2]]. unfold moved_board.
  repeat match goal with
         | |- context [if ?x then _ else _] => destruct x
         end; by rewrite !set_at_length.
Qed.

Lemma moved_board_shape b mv :
  shape_ok b = true -> shape_ok (moved_board b mv) = true.
Proof.
  intros Hs. destruct mv as [[r1 c1] [r2 c2]]. unfold moved_board.
  repeat match goal with
         | |- context [if ?x then _ else _] => destruct x
         end; auto using set_at_shape.
Qed.

Lemma midpoint_row_between mv :
  is_jump mv = true ->
  fst (midpoint mv) <> fst (fst mv) /\ fst (midpoint mv) <> fst (snd mv).
Proof.
  destruct mv as [[r1 c1] [r2 c2]]. unfold is_jump, midpoint. simpl.
  intros Hj. apply Z.eqb_eq in Hj.
  assert (r2 = r1 + 2 \/ r2 = r1 - 2) as [-> | ->] by lia.
  - replace (r1 + (r1 + 2)) with ((r1 + 1) * 2) by lia. rewrite Z.div_mul by lia. lia.
  - replace (r1 + (r1 - 2)) with ((r1 - 1) * 2) by lia. rewrite Z.div_mul by lia. lia.
Qed.

(** Every on-board cell of the board built by [apply_move]. *)
Lemma moved_board_cell b mv r c :
  shape_ok b = true -> move_on_board mv -> on_board r c ->
  cell_at (moved_board b mv) r c =
  if decide ((r, c) = snd mv) then
    crowned (cell_at b (fst (fst mv)) (snd (fst mv))) (fst (snd mv))
  else if is_jump mv && bool_decide ((r, c) = midpoint mv) then 0
  else if decide ((r, c) = fst mv) then 0
  else cell_at b r c.
Proof.
  intros Hs Hmv Hrc.
  pose proof (midpoint_on_board mv Hmv) as Hmid.
  pose proof (midpoint_row_between mv) as Hbetween.
  destruct mv as [[r1 c1] [r2 c2]]. destruct Hmv as [Ho Hd].
  simpl in Ho, Hd. unfold moved_board, crowned, midpoint in *.
  simpl fst in *. simpl snd in *.
  set (jr := (r1 + r2) / 2) in *. set (jc := (c1 + c2) / 2) in *.
  clearbody jr jc.
  set (mv := ((r1, c1), (r2, c2))) in *.
  set (piece := cell_at b r1 c1).
  assert (shape_ok (set_at b r1 c1 0) = true) as H1 by auto using set_at_shape.
  assert (shape_ok (set_at (set_at b r1 c1 0) r2 c2 piece) = true) as H2
    by auto using set_at_shape.
  destruct (is_jump mv) eqn:Hj.
  - specialize (Hmid eq_refl). destruct (Hbetween eq_refl) as [Hb1 Hb2].
    assert (shape_ok (set_at (set_at (set_at b r1 c1 0) r2 c2 piece) jr jc 0) = true)
      as H3 by auto using set_at_shape.
    destruct ((piece =? 1) && (r2 =? 0)); [|destruct ((piece =? 2) && (r2 =? 7))];
      rewrite ?cell_at_set_at by done;
      repeat case_decide; try case_bool_decide; simplify_eq; try done.
  - simpl.
    destruct ((piece =? 1) && (r2 =? 0)); [|destruct ((piece =? 2) && (r2 =? 7))];
      rewrite ?cell_at_set_at by done;
      repeat case_decide; simplify_eq; try done.
Qed.

(** ** The move generator on a board of the right shape *)

Lemma directions_unit piece d :
  In d (directions piece) -> unit_step (fst d) /\ unit_step (snd d).
Proof.
  unfold directions, unit_step.
  repeat match goal with
         | |- context [if ?x then _ else _] => destruct x
         end; simpl; intros H; intuition (subst; simpl; auto).
Qed.

Lemma step_test_ok b new_r new_c :
  shape_ok b = true -> step_test b new_r new_c = Ok (step_ok b new_r new_c).
Proof.
  intros Hs. unfold step_test, step_ok, and_then.
  destruct (in_range new_r) eqn:Er; [|done].
  destruct (in_range new_c) eqn:Ec; [|done]. simpl.
  apply in_range_spec in Er, Ec. by rewrite getcell_ok.
Qed.

Lemma jump_test_ok b piece r c dr dc :
  shape_ok b = true -> on_board r c -> unit_step dr -> unit_step dc ->
  jump_test b piece (r + dr) (c + dc) (r + 2 * dr) (c + 2 * dc) =
  Ok (jump_ok b piece (r + dr) (c + dc) (r + 2 * dr) (c + 2 * dc)).
Proof.
  intros Hs [Hr Hc] Hdr Hdc. unfold jump_test, jump_ok, and_then.
  destruct (in_range (r + 2 * dr)) eqn:Er; [|done].
  destruct (in_range (c + 2 * dc)) eqn:Ec; [|done]. simpl.
  apply in_range_spec in Er, Ec.
  rewrite (getcell_ok b (r + dr)); [|done|unfold on_board, unit_step in *; lia].
  simpl.
  destruct (cell_at b (r + dr) (c + dc) =? 0); [done|]. simpl.
  rewrite getcell_ok by done. simpl.
  by destruct (cell_at b (r + 2 * dr) (c + 2 * dc) =? 0).
Qed.

Lemma moves_in_direction_ok b piece r c moves d :
  shape_ok b = true -> on_board r c -> unit_step (fst d) -> unit_step (snd d) ->
  moves_in_direction b piece r c moves d =
  Ok (moves ++ direction_moves b piece r c d).
Proof.
  intros Hs Hrc Hdr Hdc. destruct d as [dr dc]. simpl in *.
  unfold moves_in_direction, direction_moves. simpl.
  rewrite step_test_ok by done. simpl.
  rewrite jump_test_ok by done. simpl.
  destruct (step_ok _ _ _), (jump_ok _ _ _ _ _ _);
    by rewrite ?app_nil_r, <- ?app_assoc.
Qed.

Lemma for_each_directions_ok b piece r c ds moves :
  shape_ok b = true -> on_board r c ->
  (forall d, In d ds -> unit_step (fst d) /\ unit_step (snd d)) ->
  for_each ds (moves_in_direction b piece r c) moves =
  Ok (moves ++ flat_map (direction_moves b piece r c) ds).
Proof.
  intros Hs Hrc. revert moves.
  induction ds as [|d ds IH]; intros moves Hds; simpl.
  - by rewrite app_nil_r.
  - destruct (Hds d) as [? ?]; [by left|].
    rewrite moves_in_direction_ok by done. simpl.
    rewrite IH by (intros; apply Hds; by right).
    by rewrite app_assoc.
Qed.

Lemma possible_moves_for_piece_ok b r c :
  shape_ok b = true -> on_board r c ->
  possible_moves_for_piece b r c = Ok (piece_moves b r c).
Proof.
  intros Hs Hrc. unfold possible_moves_for_piece, piece_moves.
  rewrite getcell_ok by done. simpl.
  by rewrite for_each_directions_ok by eauto using directions_unit.
Qed.

(** A doubly nested [for r in range(8): for c in range(8)] loop whose body
    succeeds on every on-board square. *)
Lemma for_each_squares {S : Type} (body : S -> Z -> Z -> result S)
    (step : S -> Z -> Z -> S) :
  (forall acc r c, on_board r c -> body acc r c = Ok (step acc r c)) ->
  forall acc,
    for_each range8 (fun acc r => for_each range8 (fun acc c => body acc r c) acc) acc =
    Ok (fold_left (fun acc r => fold_left (fun acc c => step acc r c) range8 acc)
          range8 acc).
Proof.
  intros Hbody acc. unfold range8. simpl.
  rewrite !Hbody by (unfold on_board; lia). simpl.
  repeat (rewrite !Hbody by (unfold on_board; lia); simpl). done.
Qed.

Lemma fold_left_app_flat_map {A B : Type} (f : A -> list B) (xs : list A) acc :
  fold_left (fun acc x => acc ++ f x) xs acc = acc ++ flat_map f xs.
Proof.
  revert acc. induction xs as [|x xs IH]; intros acc; simpl.
  - by rewrite app_nil_r.
  - by rewrite IH, app_assoc.
Qed.

Lemma fold_left_nested_flat_map {A B C : Type} (f : A -> B -> list C)
    (xs : list A) (ys : list B) acc :
  fold_left (fun acc x => fold_left (fun acc y => acc ++ f x y) ys acc) xs acc =
  acc ++ flat_map (fun x => flat_map (f x) ys) xs.
Proof.
  revert acc. induction xs as [|x xs IH]; intros acc; simpl.
  - by rewrite app_nil_r.
  - by rewrite fold_left_app_flat_map, IH, app_assoc.
Qed.

Lemma get_all_moves_ok b side :
  shape_ok b = true -> get_all_moves b side = Ok (all_moves b side).
Proof.
  intros Hs. unfold get_all_moves.
  rewrite (for_each_squares _
    (fun acc r c => acc ++ if owned_by side (cell_at b r c)
                           then piece_moves b r c else [])).
  - f_equal. unfold all_moves.
    by rewrite (fold_left_nested_flat_map
      (fun r c => if owned_by side (cell_at b r c) then piece_moves b r c else [])).
  - intros acc r c Hrc. rewrite getcell_ok by done. simpl.
    destruct (owned_by side (cell_at b r c)).
    + by rewrite possible_moves_for_piece_ok.
    + by rewrite app_nil_r.
Qed.

(** ** The generator returns the legal moves *)

Lemma owned_by_friendly side p : owned_by side p = true <-> friendly side p.
Proof.
  unfold owned_by, friendly, is_red, is_black.
  rewrite <- (String.eqb_eq side "red"), <- (String.eqb_eq side "black").
  rewrite <- !(Z.eqb_eq p).
  destruct (side =? "red")%string, (side =? "black")%string,
    (p =? 1), (p =? 2), (p =? 3), (p =? 4); simpl; intuition congruence.
Qed.

Lemma directions_spec p d :
  In d (directions p) <-> direction_set p (fst d) (snd d).
Proof.
  destruct d as [dr dc]. unfold directions, direction_set, unit_step. simpl.
  destruct (Z.eqb_spec p 1), (Z.eqb_spec p 2), (Z.eqb_spec p 3),
    (Z.eqb_spec p 4); simpl; split; intros H; try lia;
    repeat match goal with
           | H : _ \/ _ |- _ => destruct H
           | H : _ /\ _ |- _ => destruct H
           | H : (_, _) = (_, _) |- _ => inversion H; clear H
           | H : False |- _ => destruct H
           end; subst; try lia; auto 10.
Qed.

Lemma range8_spec r : In r range8 <-> 0 <= r < 8.
Proof. unfold range8. simpl. lia. Qed.

Lemma in_direction_moves b piece r c d mv :
  In mv (direction_moves b piece r c d) <->
  (step_ok b (r + fst d) (c + snd d) = true /\
   mv = ((r, c), (r + fst d, c + snd d))) \/
  (jump_ok b piece (r + fst d) (c + snd d) (r + 2 * fst d) (c + 2 * snd d) = true /\
   mv = ((r, c), (r + 2 * fst d, c + 2 * snd d))).
Proof.
  unfold direction_moves. rewrite in_app_iff.
  destruct (step_ok _ _ _), (jump_ok _ _ _ _ _ _); simpl; intuition congruence.
Qed.

Lemma in_all_moves b side mv :
  In mv (all_moves b side) <->
  exists r c d,
    on_board r c /\ owned_by side (cell_at b r c) = true /\
    In d (directions (cell_at b r c)) /\
    In mv (direction_moves b (cell_at b r c) r c d).
Proof.
  unfold all_moves. rewrite in_flat_map. split.
  - intros (r & Hr & H). apply in_flat_map in H as (c & Hc & H).
    apply range8_spec in Hr, Hc.
    destruct (owned_by side (cell_at b r c)) eqn:Eo; [|done].
    unfold piece_moves in H. apply in_flat_map in H as (d & Hd & H).
    exists r, c, d. unfold on_board. auto.
  - intros (r & c & d & [Hr Hc] & Eo & Hd & H).
    exists r. split; [by apply range8_spec|].
    apply in_flat_map. exists c. split; [by apply range8_spec|].
    rewrite Eo. unfold piece_moves. apply in_flat_map. eauto.
Qed.

Lemma step_ok_spec b r c :
  step_ok b r c = true <-> on_board r c /\ cell_at b r c = 0.
Proof.
  unfold step_ok, on_board.
  rewrite !andb_true_iff, !in_range_spec, Z.eqb_eq. tauto.
Qed.

Lemma jump_ok_spec b side piece r c dr dc :
  wf_board b -> on_board r c -> unit_step dr -> unit_step dc ->
  friendly side piece ->
  jump_ok b piece (r + dr) (c + dc) (r + 2 * dr) (c + 2 * dc) = true <->
  on_board (r + dr) (c + dc) /\ opposing side (cell_at b (r + dr) (c + dc)) /\
  on_board (r + 2 * dr) (c + 2 * dc) /\ cell_at b (r + 2 * dr) (c + 2 * dc) = 0.
Proof.
  intros Hwf Hrc Hdr Hdc Hf. unfold jump_ok.
  rewrite !andb_true_iff, !negb_true_iff, !in_range_spec, Z.eqb_eq, Z.eqb_neq.
  assert (0 <= r + 2 * dr < 8 /\ 0 <= c + 2 * dc < 8 -> on_board (r + dr) (c + dc))
    as Hmid by (unfold on_board, unit_step in *; lia).
  assert (on_board (r + dr) (c + dc) ->
          (cell_at b (r + dr) (c + dc) <> 0 /\
           same_color piece (cell_at b (r + dr) (c + dc)) = false <->
           opposing side (cell_at b (r + dr) (c + dc)))) as Hopp.
  { intros Hon. pose proof (cell_at_valid b _ _ Hwf Hon) as Hv.
    revert Hv. generalize (cell_at b (r + dr) (c + dc)) as m. intros m Hv.
    unfold same_color, is_red, is_black, opposing.
    destruct Hf as [[-> [-> | ->]]|[-> [-> | ->]]]; simpl;
      destruct (Z.eqb_spec m 1), (Z.eqb_spec m 2), (Z.eqb_spec m 3),
        (Z.eqb_spec m 4); simpl; split; intros H; try done; try lia;
      try (left; split; [done|lia]); try (right; split; [done|lia]);
      try (split; [lia|done]);
      destruct H as [[? ?]|[? ?]]; try done; try lia. }
  unfold on_board in *. split.
  - intros ((((? & ?) & ?) & ?) & ?). specialize (Hmid ltac:(done)).
    repeat split; try lia; try done. apply Hopp; [done|]. done.
  - intros (Hon & Ho & (? & ?) & ?). apply Hopp in Ho as [? ?]; [|done].
    repeat split; try lia; done.
Qed.

Lemma direction_set_unit p dr dc :
  direction_set p dr dc -> unit_step dr /\ unit_step dc.
Proof. unfold direction_set, unit_step. intuition lia. Qed.

Lemma in_all_moves_legal b side mv :
  wf_board b ->
  In mv (all_moves b side) <->
  exists r c dr dc,
    (step_legal b side r c dr dc /\ mv = ((r, c), (r + dr, c + dc))) \/
    (jump_legal b side r c dr dc /\ mv = ((r, c), (r + 2 * dr, c + 2 * dc))).
Proof.
  intros Hwf. rewrite in_all_moves. split.
  - intros (r & c & [dr dc] & Hrc & Ho & Hd & H).
    apply owned_by_friendly in Ho. apply directions_spec in Hd.
    destruct (direction_set_unit _ _ _ Hd) as [Hdr Hdc]. simpl in *.
    apply in_direction_moves in H. simpl in H.
    exists r, c, dr, dc. destruct H as [[H ->]|[H ->]]; [left|right].
    + apply step_ok_spec in H as [? ?]. unfold step_legal. tauto.
    + apply (jump_ok_spec b side) in H as (? & ? & ? & ?); done.
  - intros (r & c & dr & dc & [[H ->]|[H ->]]).
    + destruct H as (Hrc & Hf & Hd & Hon & He).
      exists r, c, (dr, dc). repeat split; try apply Hrc.
      * by apply owned_by_friendly.
      * by apply directions_spec.
      * apply in_direction_moves. left. split; [|done].
        by apply step_ok_spec.
    + destruct H as (Hrc & Hf & Hd & Hon & Hopp & Hon2 & He).
      destruct (direction_set_unit _ _ _ Hd) as [Hdr Hdc].
      exists r, c, (dr, dc). repeat split; try apply Hrc.
      * by apply owned_by_friendly.
      * by apply directions_spec.
      * apply in_direction_moves. right. split; [|done].
        by apply (jump_ok_spec b side).
Qed.

(** C5: on a well-formed board the generator returns exactly the legal
    steps and the legal jumps.  A step [(origin, origin+d)] is in the list
    iff the origin holds a piece of the side, [d] is in the piece's direction
    set and the destination is on the board and empty; a jump
    [(origin, origin+2d)] is in the list iff moreover the square [origin+d]
    is on the board and holds a piece of the other side and the landing
    square is on the board and empty; the list holds nothing else, and so
    every move starts on a friendly piece and ends on an empty on-board
    square. *)
Theorem get_all_moves_characterised b side :
  wf_board b ->
  exists ms,
    get_all_moves b side = Ok ms /\
    (forall r c dr dc, unit_step dr -> unit_step dc ->
       (In ((r, c), (r + dr, c + dc)) ms <-> step_legal b side r c dr dc)) /\
    (forall r c dr dc, unit_step dr -> unit_step dc ->
       (In ((r, c), (r + 2 * dr, c + 2 * dc)) ms <-> jump_legal b side r c dr dc)) /\
    (forall mv, In mv ms ->
       exists r c dr dc, unit_step dr /\ unit_step dc /\
         (mv = ((r, c), (r + dr, c + dc)) \/
          mv = ((r, c), (r + 2 * dr, c + 2 * dc)))) /\
    (forall r c r' c', In ((r, c), (r', c')) ms ->
       on_board r c /\ friendly side (cell_at b r c) /\
       on_board r' c' /\ cell_at b r' c' = 0).
Proof.
  intros Hwf. exists (all_moves b side).
  split; [apply get_all_moves_ok, Hwf|].
  split; [|split; [|split]].
  - intros r c dr dc Hdr Hdc. rewrite in_all_moves_legal by done. split.
    + intros (r0 & c0 & dr0 & dc0 & [[Hl E]|[Hl E]]); inversion E; subst.
      * by replace dr with dr0 by lia; replace dc with dc0 by lia.
      * destruct Hl as (_ & _ & Hd & _). apply direction_set_unit in Hd.
        unfold unit_step in *. lia.
    + intros Hl. exists r, c, dr, dc. auto.
  - intros r c dr dc Hdr Hdc. rewrite in_all_moves_legal by done. split.
    + intros (r0 & c0 & dr0 & dc0 & [[Hl E]|[Hl E]]); inversion E; subst.
      * destruct Hl as (_ & _ & Hd & _). apply direction_set_unit in Hd.
        unfold unit_step in *. lia.
      * by replace dr with dr0 by lia; replace dc with dc0 by lia.
    + intros Hl. exists r, c, dr, dc. auto.
  - intros mv Hin. apply in_all_moves_legal in Hin; [|done].
    destruct Hin as (r & c & dr & dc & H). exists r, c, dr, dc.
    destruct H as [[Hl ->]|[Hl ->]];
      destruct Hl as (_ & _ & Hd & _); apply direction_set_unit in Hd; tauto.
  - intros r c r' c' H. apply in_all_moves_legal in H; [|done].
    destruct H as (r0 & c0 & dr & dc & [[Hl E]|[Hl E]]); inversion E; subst.
    + unfold step_legal in Hl. tauto.
    + unfold jump_legal in Hl. tauto.
Qed.

(** C6: a move whose rows differ by two leaves the midpoint square empty
    whatever it held, leaves the origin empty and puts the moved piece,
    crowned if it reached its far row, on the destination. *)
Theorem apply_move_jump_clears_midpoint b r1 c1 r2 c2 :
  shape_ok b = true -> on_board r1 c1 -> on_board r2 c2 ->
  Z.abs (r2 - r1) = 2 ->
  exists nb,
    apply_move b ((r1, c1), (r2, c2)) = Ok nb /\
    cell_at nb ((r1 + r2) / 2) ((c1 + c2) / 2) = 0 /\
    cell_at nb r1 c1 = 0 /\
    cell_at nb r2 c2 = crowned (cell_at b r1 c1) r2.
Proof.
  intros Hs Ho Hd Hj. set (mv := ((r1, c1), (r2, c2))).
  assert (move_on_board mv) as Hmv by done.
  assert (is_jump mv = true) as Hjump by (by apply Z.eqb_eq).
  exists (moved_board b mv). split; [by apply apply_move_ok|].
  pose proof (midpoint_on_board mv Hmv Hjump) as Hmid.
  destruct (midpoint_row_between mv Hjump) as [Hb1 Hb2].
  rewrite !moved_board_cell by done. rewrite Hjump.
  unfold midpoint in *. simpl in *.
  repeat split; repeat case_decide; try case_bool_decide; simplify_eq;
    try done; lia.
Qed.

(** C7: whatever the shape of the move, the destination holds a red king
    when a red man reached row 0, a black king when a black man reached row
    7, and in every other case the very tag that was moved. *)
Theorem apply_move_promotion b r1 c1 r2 c2 :
  shape_ok b = true -> on_board r1 c1 -> on_board r2 c2 ->
  exists nb,
    apply_move b ((r1, c1), (r2, c2)) = Ok nb /\
    (cell_at b r1 c1 = 1 -> r2 = 0 -> cell_at nb r2 c2 = 3) /\
    (cell_at b r1 c1 = 2 -> r2 = 7 -> cell_at nb r2 c2 = 4) /\
    (~ (cell_at b r1 c1 = 1 /\ r2 = 0) -> ~ (cell_at b r1 c1 = 2 /\ r2 = 7) ->
     cell_at nb r2 c2 = cell_at b r1 c1).
Proof.
  intros Hs Ho Hd. set (mv := ((r1, c1), (r2, c2))).
  assert (move_on_board mv) as Hmv by done.
  exists (moved_board b mv). split; [by apply apply_move_ok|].
  rewrite moved_board_cell by done. simpl. rewrite decide_True by done.
  unfold crowned.
  destruct (Z.eqb_spec (cell_at b r1 c1) 1), (Z.eqb_spec (cell_at b r1 c1) 2),
    (Z.eqb_spec r2 0), (Z.eqb_spec r2 7); simpl; repeat split; intros;
    try done; try lia; tauto.
Qed.

(** ** Alpha-beta against plain minimax *)

Lemma score_ltb_true a b :
  score_ltb a b = true <->
  score_tag a < score_tag b \/
  (score_tag a = score_tag b /\ score_key a < score_key b).
Proof. destruct a, b; simpl; rewrite ?Z.ltb_lt; intuition (try discriminate; lia). Qed.

Lemma score_ltb_false a b :
  score_ltb a b = false <->
  score_tag b < score_tag a \/
  (score_tag a = score_tag b /\ score_key b <= score_key a).
Proof. destruct a, b; simpl; rewrite ?Z.ltb_ge; intuition (try discriminate; lia). Qed.

Lemma score_leb_true a b :
  score_leb a b = true <->
  score_tag a < score_tag b \/
  (score_tag a = score_tag b /\ score_key a <= score_key b).
Proof. destruct a, b; simpl; rewrite ?Z.leb_le; intuition (try discriminate; lia). Qed.

Lemma score_leb_false a b :
  score_leb a b = false <->
  score_tag b < score_tag a \/
  (score_tag a = score_tag b /\ score_key b < score_key a).
Proof. destruct a, b; simpl; rewrite ?Z.leb_gt; intuition (try discriminate; lia). Qed.

Lemma score_eq_keys (a b : score) :
  a = b <-> score_tag a = score_tag b /\ score_key a = score_key b.
Proof.
  split; [by intros ->|].
  destruct a, b; simpl; intros [? ?]; try discriminate; try done.
  by f_equal.
Qed.

Ltac score_lia :=
  unfold within, score_lt, score_le, score_max, score_min in *;
  repeat match goal with
         | |- context [if score_ltb ?a ?b then _ else _] =>
             destruct (score_ltb a b) eqn:?
         | H : context [if score_ltb ?a ?b then _ else _] |- _ =>
             destruct (score_ltb a b) eqn:?
         end;
  rewrite ?score_ltb_true, ?score_ltb_false, ?score_leb_true, ?score_leb_false,
    ?score_eq_keys in *;
  lia.

Lemma within_full_window v v' : within NegInf PosInf v v' -> v' = v.
Proof. intros H. destruct v, v'; unfold within, score_lt, score_le in H; simpl in H;
  intuition (try discriminate; auto). Qed.

Lemma score_max_ge_l a b : score_le a (score_max a b).
Proof. score_lia. Qed.

Lemma score_max_ge_r a b : score_le b (score_max a b).
Proof. score_lia. Qed.

Lemma score_min_le_l a b : score_le (score_min a b) a.
Proof. score_lia. Qed.

Lemma score_min_le_r a b : score_le (score_min a b) b.
Proof. score_lia. Qed.

Lemma score_le_trans a b c : score_le a b -> score_le b c -> score_le a c.
Proof. intros. score_lia. Qed.

Lemma score_lt_le a b : score_lt a b -> score_le a b.
Proof. intros. score_lia. Qed.

Lemma score_lt_not_le a b : score_leb a b = false <-> score_lt b a.
Proof. score_lia. Qed.

Lemma score_max_lub a b c : score_le a c -> score_le b c -> score_le (score_max a b) c.
Proof. intros. score_lia. Qed.

Lemma score_min_glb a b c : score_le c a -> score_le c b -> score_le c (score_min a b).
Proof. intros. score_lia. Qed.

Lemma score_max_lt a b c : score_lt (score_max a b) c <-> score_lt a c /\ score_lt b c.
Proof. score_lia. Qed.

Lemma score_min_lt a b c : score_lt c (score_min a b) <-> score_lt c a /\ score_lt c b.
Proof. score_lia. Qed.

Lemma score_max_assoc_window a w c :
  score_max (score_max a w) (score_max w c) = score_max a (score_max w c).
Proof. score_lia. Qed.

Lemma score_min_assoc_window a w c :
  score_min (score_min a w) (score_min w c) = score_min a (score_min w c).
Proof. score_lia. Qed.

(** A child value below [beta] is at least the child's minimax value; one
    above [alpha] is at most it. *)
Lemma within_below_beta alpha beta c c' :
  within alpha beta c c' -> score_lt c' beta -> score_le c c'.
Proof. intros. score_lia. Qed.

Lemma within_above_alpha alpha beta c c' :
  within alpha beta c c' -> score_lt alpha c' -> score_le c' c.
Proof. intros. score_lia. Qed.

Lemma within_inside alpha beta c c' :
  within alpha beta c c' -> score_lt alpha c' -> score_lt c' beta -> c' = c.
Proof. intros H. apply H. Qed.

Lemma within_at_beta alpha beta c c' :
  within alpha beta c c' -> score_le beta c' -> score_le c' c.
Proof. intros H. apply H. Qed.

Lemma within_at_alpha alpha beta c c' :
  within alpha beta c c' -> score_le c' alpha -> score_le c c'.
Proof. intros H. apply H. Qed.

Lemma score_max_mono u w c c' :
  score_le u w -> score_le c c' -> score_le (score_max u c) (score_max w c').
Proof. intros. score_lia. Qed.

Lemma score_min_mono u w c c' :
  score_le w u -> score_le c' c -> score_le (score_min w c') (score_min u c).
Proof. intros. score_lia. Qed.

Lemma score_max_cut a b w c' :
  score_lt (score_max a w) b -> score_le b (score_max a (score_max w c')) ->
  score_max w c' = c' /\ score_le b c'.
Proof. intros. score_lia. Qed.

Lemma score_min_cut a b w c' :
  score_lt a (score_min b w) -> score_le (score_min b (score_min w c')) a ->
  score_min w c' = c' /\ score_le c' a.
Proof. intros. score_lia. Qed.

Lemma within_beyond_beta a b v x :
  score_lt a b -> score_le b x -> score_le x v -> within a b v x.
Proof. intros. score_lia. Qed.

Lemma within_beyond_alpha a b v x :
  score_lt a b -> score_le x a -> score_le v x -> within a b v x.
Proof. intros. score_lia. Qed.

Lemma max_inv_step alpha0 u w c c' :
  max_inv alpha0 u w -> score_le c c' ->
  (score_lt (score_max alpha0 w) c' -> c' = c) ->
  max_inv alpha0 (score_max u c) (score_max w c').
Proof.
  unfold max_inv. intros [H1 H2] H3 H4. split; [by apply score_max_mono|].
  intros H5. score_lia.
Qed.

Lemma min_inv_step beta0 u w c c' :
  min_inv beta0 u w -> score_le c' c ->
  (score_lt c' (score_min beta0 w) -> c' = c) ->
  min_inv beta0 (score_min u c) (score_min w c').
Proof.
  unfold min_inv. intros [H1 H2] H3 H4. split; [by apply score_min_mono|].
  intros H5. score_lia.
Qed.

Lemma max_inv_end alpha0 beta u w :
  score_lt (score_max alpha0 w) beta -> max_inv alpha0 u w ->
  within alpha0 beta u w.
Proof. unfold max_inv. intros H1 [H2 H3]. score_lia. Qed.

Lemma min_inv_end alpha beta0 u w :
  score_lt alpha (score_min beta0 w) -> min_inv beta0 u w ->
  within alpha beta0 u w.
Proof. unfold min_inv. intros H1 [H2 H3]. score_lia. Qed.

Section Pruning.
(** The recursive calls one level down: whenever plain minimax returns a
    value, the windowed search returns a result within its window. *)
Variable rec_ab : board -> Z -> score -> score -> bool -> result search_result.
Variable rec_mm : board -> Z -> bool -> result score.
Hypothesis rec_within :
  forall nb d alpha beta maxi v,
    score_lt alpha beta -> rec_mm nb d maxi = Ok v ->
    exists v' m, rec_ab nb d alpha beta maxi = Ok (v', m) /\ within alpha beta v v'.
Variables (b : board) (depth : Z).

Lemma minimax_max_ge moves u v :
  minimax_max rec_mm b depth moves u = Ok v -> score_le u v.
Proof.
  revert u. induction moves as [|mv rest IH]; intros u; simpl.
  - intros [= ->]. score_lia.
  - destruct (apply_move b mv) as [nb| |]; simpl; try discriminate.
    destruct (rec_mm nb (depth - 1) false) as [c| |]; simpl; try discriminate.
    intros H. apply IH in H.
    eapply score_le_trans; [apply score_max_ge_l|exact H].
Qed.

Lemma minimax_min_le moves u v :
  minimax_min rec_mm b depth moves u = Ok v -> score_le v u.
Proof.
  revert u. induction moves as [|mv rest IH]; intros u; simpl.
  - intros [= ->]. score_lia.
  - destruct (apply_move b mv) as [nb| |]; simpl; try discriminate.
    destruct (rec_mm nb (depth - 1) true) as [c| |]; simpl; try discriminate.
    intros H. apply IH in H.
    eapply score_le_trans; [exact H|apply score_min_le_l].
Qed.

Lemma max_loop_within moves alpha0 beta u w best v :
  score_lt (score_max alpha0 w) beta -> max_inv alpha0 u w ->
  minimax_max rec_mm b depth moves u = Ok v ->
  exists v' best',
    max_loop rec_ab b depth beta moves w best (score_max alpha0 w) = Ok (v', best') /\
    within alpha0 beta v v'.
Proof.
  revert u w best. induction moves as [|mv rest IH]; intros u w best Hwin Hinv; simpl.
  - intros [= <-]. eexists _, _. split; [done|]. by apply max_inv_end.
  - destruct (apply_move b mv) as [nb| |]; simpl; try discriminate.
    destruct (rec_mm nb (depth - 1) false) as [c| |] eqn:Ec; simpl; try discriminate.
    intros Hmm.
    destruct (rec_within nb (depth - 1) (score_max alpha0 w) beta false c Hwin Ec)
      as (c' & m & -> & Hc).
    simpl. change (if score_ltb w c' then c' else w) with (score_max w c').
    rewrite score_max_assoc_window.
    destruct (score_leb beta (score_max alpha0 (score_max w c'))) eqn:Ecut.
    + eexists _, _. split; [done|].
      destruct (score_max_cut alpha0 beta w c' Hwin Ecut) as [-> Hb].
      apply within_beyond_beta; [by apply score_max_lt in Hwin as [? _]|done|].
      eapply score_le_trans; [exact (within_at_beta _ _ _ _ Hc Hb)|].
      eapply score_le_trans; [apply score_max_ge_r|].
      exact (minimax_max_ge _ _ _ Hmm).
    + apply score_lt_not_le in Ecut.
      assert (score_lt c' beta) as Hlt
        by (apply score_max_lt in Ecut as [_ H]; by apply score_max_lt in H as [_ ?]).
      eapply IH; [done| |exact Hmm].
      apply max_inv_step; [done|by eapply within_below_beta|].
      intros H. by eapply within_inside.
Qed.

Lemma min_loop_within moves alpha beta0 u w best v :
  score_lt alpha (score_min beta0 w) -> min_inv beta0 u w ->
  minimax_min rec_mm b depth moves u = Ok v ->
  exists v' best',
    min_loop rec_ab b depth alpha moves w best (score_min beta0 w) = Ok (v', best') /\
    within alpha beta0 v v'.
Proof.
  revert u w best. induction moves as [|mv rest IH]; intros u w best Hwin Hinv; simpl.
  - intros [= <-]. eexists _, _. split; [done|]. by apply min_inv_end.
  - destruct (apply_move b mv) as [nb| |]; simpl; try discriminate.
    destruct (rec_mm nb (depth - 1) true) as [c| |] eqn:Ec; simpl; try discriminate.
    intros Hmm.
    destruct (rec_within nb (depth - 1) alpha (score_min beta0 w) true c Hwin Ec)
      as (c' & m & -> & Hc).
    simpl. change (if score_ltb c' w then c' else w) with (score_min w c').
    rewrite score_min_assoc_window.
    destruct (score_leb (score_min beta0 (score_min w c')) alpha) eqn:Ecut.
    + eexists _, _. split; [done|].
      destruct (score_min_cut alpha beta0 w c' Hwin Ecut) as [-> Hb].
      apply within_beyond_alpha; [by apply score_min_lt in Hwin as [? _]|done|].
      eapply score_le_trans; [|exact (within_at_alpha _ _ _ _ Hc Hb)].
      eapply score_le_trans; [|apply score_min_le_r].
      exact (minimax_min_le _ _ _ Hmm).
    + apply score_lt_not_le in Ecut.
      assert (score_lt alpha c') as Hlt
        by (apply score_min_lt in Ecut as [_ H]; by apply score_min_lt in H as [_ ?]).
      eapply IH; [done| |exact Hmm].
      apply min_inv_step; [done|by eapply within_above_alpha|].
      intros H. by eapply within_inside.
Qed.
End Pruning.

Lemma score_max_NegInf a : score_max a NegInf = a.
Proof. by destruct a. Qed.

Lemma score_min_PosInf a : score_min a PosInf = a.
Proof. by destruct a. Qed.

Lemma within_exact alpha beta v : within alpha beta v v.
Proof. score_lia. Qed.

Lemma max_inv_start alpha0 : max_inv alpha0 NegInf NegInf.
Proof. split; [done|]. by destruct alpha0. Qed.

Lemma min_inv_start beta0 : min_inv beta0 PosInf PosInf.
Proof. split; [done|]. by destruct beta0. Qed.

#[local] Arguments max_loop : simpl never.
#[local] Arguments min_loop : simpl never.
#[local] Arguments minimax_max : simpl never.
#[local] Arguments minimax_min : simpl never.

(** Whenever plain minimax returns a value, the alpha-beta search started
    with any window [alpha < beta] returns a result within that window. *)
Lemma alpha_beta_within fuel :
  forall b depth alpha beta maxi v,
    score_lt alpha beta -> minimax fuel b depth maxi = Ok v ->
    exists v' m,
      alpha_beta fuel b depth alpha beta maxi = Ok (v', m) /\ within alpha beta v v'.
Proof.
  induction fuel as [|fuel IH]; intros b depth alpha beta maxi v Hwin; simpl;
    [discriminate|].
  destruct (depth =? 0).
  - destruct (evaluate b) as [s| |]; simpl; try discriminate.
    intros [= <-]. eexists _, _. split; [done|]. apply within_exact.
  - destruct (get_all_moves b _) as [[|mv moves]| |]; simpl; try discriminate.
    + intros [= <-]. eexists _, _. split; [done|]. apply within_exact.
    + destruct maxi; intros Hmm.
      * pose proof (max_loop_within (alpha_beta fuel) (minimax fuel) IH b depth
                      (mv :: moves) alpha beta NegInf NegInf None v) as H.
        rewrite score_max_NegInf in H. apply H; auto using max_inv_start.
      * pose proof (min_loop_within (alpha_beta fuel) (minimax fuel) IH b depth
                      (mv :: moves) alpha beta PosInf PosInf None v) as H.
        rewrite score_min_PosInf in H. apply H; auto using min_inv_start.
Qed.

(** ** Evaluation *)

Lemma fold_range8 {A : Type} (h : A -> Z) (d : A) (l : list A)
    (F : Z -> Z -> Z) acc :
  length l = 8%nat ->
  (forall acc i, 0 <= i < 8 -> F acc i = acc + h (default d (l !! Z.to_nat i))) ->
  fold_left F range8 acc = acc + foldr (fun x a => h x + a) 0 l.
Proof.
  intros Hlen HF.
  do 9 (destruct l as [|? l]; try discriminate Hlen).
  unfold range8. simpl. rewrite !HF by lia. simpl. lia.
Qed.

Lemma board_sum_range8 (f : cell -> Z) (b : board) acc :
  shape_ok b = true ->
  fold_left (fun acc r =>
    fold_left (fun acc c => acc + f (cell_at b r c)) range8 acc) range8 acc =
  acc + board_sum f b.
Proof.
  intros Hs. unfold board_sum.
  apply (fold_range8 (row_sum f) []); [by apply shape_ok_length|].
  intros acc' r Hr.
  destruct (shape_ok_lookup b r Hs Hr) as (rw & Hrw & Hlen).
  rewrite Hrw. change (default [] (Some rw)) with rw. unfold row_sum.
  apply (fold_range8 f 0); [done|].
  intros acc'' c Hc. unfold cell_at. by rewrite Hrw.
Qed.

Lemma evaluate_ok b : shape_ok b = true -> evaluate b = Ok (material b).
Proof.
  intros Hs. unfold evaluate.
  rewrite (for_each_squares _ (fun acc r c => acc + piece_value (cell_at b r c))).
  - by rewrite board_sum_range8.
  - intros acc r c Hrc. rewrite getcell_ok by done. simpl. f_equal.
    unfold piece_value.
    repeat match goal with
           | |- context [if ?x then _ else _] => destruct x
           end; lia.
Qed.

Lemma row_sum_le (f g : cell -> Z) rw :
  (forall p, f p <= g p) -> row_sum f rw <= row_sum g rw.
Proof.
  intros H. induction rw as [|p rw IH]; simpl; [lia|]. specialize (H p). lia.
Qed.

Lemma board_sum_le (f g : cell -> Z) b :
  (forall p, f p <= g p) -> board_sum f b <= board_sum g b.
Proof.
  intros H. induction b as [|rw b IH]; simpl; [lia|].
  pose proof (row_sum_le f g rw H). lia.
Qed.

Lemma row_sum_scale k (f : cell -> Z) rw :
  row_sum (fun p => k * f p) rw = k * row_sum f rw.
Proof. induction rw as [|p rw IH]; simpl; [lia|]. rewrite IH. lia. Qed.

Lemma board_sum_scale k (f : cell -> Z) b :
  board_sum (fun p => k * f p) b = k * board_sum f b.
Proof.
  induction b as [|rw b IH]; simpl; [lia|]. rewrite IH, row_sum_scale. lia.
Qed.

Lemma material_le_red b : material b <= 8 * red_count b.
Proof.
  unfold material, red_count. rewrite <- board_sum_scale.
  apply board_sum_le. intros p. unfold piece_value, is_red.
  destruct (p =? 1), (p =? 3), (p =? 2), (p =? 4); simpl; lia.
Qed.

Lemma material_ge_black b : - (8 * black_count b) <= material b.
Proof.
  unfold material, black_count.
  replace (- (8 * board_sum (fun p => if is_black p then 1 else 0) b))
    with (-8 * board_sum (fun p => if is_black p then 1 else 0) b) by lia.
  rewrite <- board_sum_scale.
  apply board_sum_le. intros p. unfold piece_value, is_black.
  destruct (p =? 1), (p =? 3), (p =? 2), (p =? 4); simpl; lia.
Qed.

Lemma board_sum_shape_bound (f : cell -> Z) b k :
  shape_ok b = true -> (forall p, 0 <= f p <= k) -> 0 <= board_sum f b <= 64 * k.
Proof.
  intros Hs Hf.
  assert (forall rw : row, 0 <= row_sum f rw <= Z.of_nat (length rw) * k) as Hrow.
  { induction rw as [|p rw IH]; simpl length; simpl row_sum; [lia|].
    specialize (Hf p). nia. }
  apply shape_ok_spec in Hs as [Hlen Hrows].
  assert (0 <= board_sum f b <= Z.of_nat (length b) * (8 * k)) as H; [|lia].
  clear Hlen. induction Hrows as [|rw b Hrw _ IH]; simpl length; simpl board_sum; [lia|].
  specialize (Hrow rw). rewrite Hrw in Hrow. nia.
Qed.

Lemma row_sum_insert (f : cell -> Z) (rw : row) n v :
  (n < length rw)%nat ->
  row_sum f (<[n := v]> rw) = row_sum f rw - f (default 0 (rw !! n)) + f v.
Proof.
  revert n. induction rw as [|p rw IH]; intros n Hn; simpl in Hn; [lia|].
  destruct n as [|n]; simpl; [lia|].
  rewrite IH by lia. lia.
Qed.

Lemma board_sum_alter (f : cell -> Z) (g : row -> row) (b : board) n rw :
  b !! n = Some rw ->
  board_sum f (alter g n b) = board_sum f b - row_sum f rw + row_sum f (g rw).
Proof.
  revert n. induction b as [|rw0 b IH]; intros n Hl; [done|].
  destruct n as [|n].
  - inversion Hl; subst. simpl. lia.
  - change (board_sum f (alter g (S n) (rw0 :: b)))
      with (row_sum f rw0 + board_sum f (alter g n b)).
    rewrite (IH n Hl). simpl. lia.
Qed.

Lemma board_sum_set_at (f : cell -> Z) b r c v :
  shape_ok b = true -> on_board r c ->
  board_sum f (set_at b r c v) = board_sum f b - f (cell_at b r c) + f v.
Proof.
  intros Hs [Hr Hc].
  destruct (shape_ok_lookup b r Hs Hr) as (rw & Hrw & Hlen).
  unfold set_at, cell_at. rewrite (board_sum_alter f _ b _ rw Hrw), Hrw. simpl.
  rewrite row_sum_insert by lia. lia.
Qed.

(** C9, as stated, fails: a board of the right shape and tags may hold more
    than twelve pieces of a side, here sixty-four red kings worth 512. *)
Lemma evaluate_exceeds_96 :
  wf_board crowded_board /\
  evaluate crowded_board = Ok 512 /\
  ~ (Z.abs 512 <= 8 * 12).
Proof. split; [done|]. split; [reflexivity|lia]. Qed.

(** C9, amended: on a well-formed board [evaluate] returns the sum of the
    per-cell contributions (red man 5, red king 8, black man -5, black king
    -8, empty 0); the sum lies between -8 times the number of black pieces
    and 8 times the number of red pieces, so within 512 of zero on any board
    and within 96 when neither side has more than twelve pieces; and an
    integer score is strictly between the two infinite sentinels. *)
Theorem evaluate_material_bounds b :
  wf_board b ->
  evaluate b = Ok (material b) /\
  - (8 * black_count b) <= material b <= 8 * red_count b /\
  Z.abs (material b) <= 8 * 64 /\
  (red_count b <= 12 -> black_count b <= 12 -> Z.abs (material b) <= 8 * 12) /\
  score_lt NegInf (Fin (material b)) /\ score_lt (Fin (material b)) PosInf.
Proof.
  intros [Hs Ht].
  pose proof (material_le_red b) as Hred.
  pose proof (material_ge_black b) as Hblack.
  assert (0 <= red_count b <= 64 * 1) as Hr.
  { apply board_sum_shape_bound; [done|]. intros p. destruct (is_red p); lia. }
  assert (0 <= black_count b <= 64 * 1) as Hb.
  { apply board_sum_shape_bound; [done|]. intros p. destruct (is_black p); lia. }
  split; [by apply evaluate_ok|].
  repeat split; try done; lia.
Qed.

(** ** Well-formedness along generated moves *)

Lemma moved_board_wf b mv :
  wf_board b -> move_on_board mv -> wf_board (moved_board b mv).
Proof.
  intros Hwf Hmv. split; [apply moved_board_shape, Hwf|].
  destruct mv as [[r1 c1] [r2 c2]]. destruct Hmv as [Ho Hd]. simpl in Ho, Hd.
  pose proof (cell_at_valid b r1 c1 Hwf Ho) as Hv.
  destruct Hwf as [Hs Ht]. unfold moved_board.
  assert (valid_tag (cell_at b r1 c1) = true) as Hp by (unfold valid_tag; lia).
  repeat match goal with
         | |- context [if ?x then _ else _] => destruct x
         end; auto 10 using set_at_tags.
Qed.

Ltac eqb_cases :=
  repeat match goal with
         | H : context [?x =? ?y] |- _ => destruct (Z.eqb_spec x y)
         | |- context [?x =? ?y] => destruct (Z.eqb_spec x y)
         end;
  simpl in *; try discriminate; try lia.

Lemma moved_board_occupied b mv :
  shape_ok b = true -> move_on_board mv -> fst mv <> snd mv ->
  occupied (moved_board b mv) =
  occupied b - nonempty (cell_at b (fst (snd mv)) (snd (snd mv)))
  - (if is_jump mv
     then nonempty (cell_at b (fst (midpoint mv)) (snd (midpoint mv)))
     else 0).
Proof.
  intros Hs Hmv Hne.
  pose proof (midpoint_on_board mv Hmv) as Hmid.
  pose proof (midpoint_row_between mv) as Hbetween.
  destruct mv as [[r1 c1] [r2 c2]]. destruct Hmv as [Ho Hd].
  simpl in Ho, Hd, Hne. unfold moved_board, midpoint, occupied in *.
  simpl fst in *. simpl snd in *.
  set (jr := (r1 + r2) / 2) in *. set (jc := (c1 + c2) / 2) in *.
  clearbody jr jc.
  set (mv := ((r1, c1), (r2, c2))) in *.
  set (piece := cell_at b r1 c1).
  assert (shape_ok (set_at b r1 c1 0) = true) as H1 by auto using set_at_shape.
  assert (shape_ok (set_at (set_at b r1 c1 0) r2 c2 piece) = true) as H2
    by auto using set_at_shape.
  fold nonempty.
  destruct (is_jump mv) eqn:Hj.
  - specialize (Hmid eq_refl). destruct (Hbetween eq_refl) as [Hb1 Hb2].
    assert (shape_ok (set_at (set_at (set_at b r1 c1 0) r2 c2 piece) jr jc 0) = true)
      as H3 by auto using set_at_shape.
    assert ((r1, c1) <> (jr, jc)) by congruence.
    assert ((r2, c2) <> (jr, jc)) by congruence.
    assert ((jr, jc) <> (r2, c2)) by congruence.
    destruct ((piece =? 1) && (r2 =? 0)) eqn:E1;
      [|destruct ((piece =? 2) && (r2 =? 7)) eqn:E2];
      rewrite ?board_sum_set_at by done;
      rewrite ?cell_at_set_at by done;
      repeat case_decide; try congruence;
      unfold nonempty; subst piece; eqb_cases.
  - destruct ((piece =? 1) && (r2 =? 0)) eqn:E1;
      [|destruct ((piece =? 2) && (r2 =? 7)) eqn:E2];
      rewrite ?board_sum_set_at by done;
      rewrite ?cell_at_set_at by done;
      repeat case_decide; try congruence;
      unfold nonempty; subst piece; eqb_cases.
Qed.

Lemma crowned_friendly side p r2 : friendly side p -> friendly side (crowned p r2).
Proof.
  unfold friendly, crowned.
  intros [[-> [-> | ->]]|[-> [-> | ->]]]; simpl;
    destruct (r2 =? 0), (r2 =? 7); simpl; auto.
Qed.

Lemma friendly_nonempty side p : friendly side p -> nonempty p = 1.
Proof. unfold friendly, nonempty. intros [[_ [-> | ->]]|[_ [-> | ->]]]; done. Qed.

Lemma opposing_nonempty side p : opposing side p -> nonempty p = 1.
Proof. unfold opposing, nonempty. intros [[_ [-> | ->]]|[_ [-> | ->]]]; done. Qed.

Lemma midpoint_of_jump r c dr dc :
  midpoint ((r, c), (r + 2 * dr, c + 2 * dc)) = (r + dr, c + dc).
Proof.
  unfold midpoint. simpl. f_equal.
  - replace (r + (r + 2 * dr)) with ((r + dr) * 2) by lia. by rewrite Z.div_mul.
  - replace (c + (c + 2 * dc)) with ((c + dc) * 2) by lia. by rewrite Z.div_mul.
Qed.

(** What [apply_move] does to a move the generator produced. *)
Lemma apply_generated_move b side mv :
  wf_board b -> In mv (all_moves b side) ->
  move_on_board mv /\
  apply_move b mv = Ok (moved_board b mv) /\
  wf_board (moved_board b mv) /\
  friendly side (cell_at b (fst (fst mv)) (snd (fst mv))) /\
  friendly side (cell_at (moved_board b mv) (fst (snd mv)) (snd (snd mv))) /\
  occupied (moved_board b mv) = occupied b - (if is_jump mv then 1 else 0).
Proof.
  intros Hwf Hin. pose proof Hwf as [Hs _].
  apply in_all_moves_legal in Hin; [|done].
  destruct Hin as (r & c & dr & dc & [[Hl ->]|[Hl ->]]).
  - destruct Hl as (Ho & Hf & Hdir & Hd & He).
    destruct (direction_set_unit _ _ _ Hdir) as [Hdr Hdc].
    set (mv := ((r, c), (r + dr, c + dc))).
    assert (move_on_board mv) as Hmv by done.
    assert (is_jump mv = false) as Hj.
    { unfold is_jump, mv. simpl. apply Z.eqb_neq. unfold unit_step in *. lia. }
    split; [done|]. split; [by apply apply_move_ok|].
    split; [by apply moved_board_wf|]. split; [done|]. split.
    + rewrite moved_board_cell by done. simpl. rewrite decide_True by done.
      by apply crowned_friendly.
    + rewrite moved_board_occupied; [|done|done|].
      * rewrite Hj. simpl. rewrite He. unfold nonempty. simpl. lia.
      * simpl. unfold unit_step in *. intros [= ? ?]. lia.
  - destruct Hl as (Ho & Hf & Hdir & Hm & Hopp & Hd & He).
    destruct (direction_set_unit _ _ _ Hdir) as [Hdr Hdc].
    set (mv := ((r, c), (r + 2 * dr, c + 2 * dc))).
    assert (move_on_board mv) as Hmv by done.
    assert (is_jump mv = true) as Hj.
    { unfold is_jump, mv. simpl. apply Z.eqb_eq. unfold unit_step in *. lia. }
    split; [done|]. split; [by apply apply_move_ok|].
    split; [by apply moved_board_wf|]. split; [done|]. split.
    + rewrite moved_board_cell by done. simpl. rewrite decide_True by done.
      by apply crowned_friendly.
    + rewrite moved_board_occupied; [|done|done|].
      * rewrite Hj. unfold mv. rewrite midpoint_of_jump. simpl.
        rewrite He, (opposing_nonempty side _ Hopp). unfold nonempty. simpl. lia.
      * simpl. unfold unit_step in *. intros [= ? ?]. lia.
Qed.

(** C10: from a well-formed board, applying any move the generator returns
    for the side gives again a board of eight rows of eight cells with tags
    in 0..4; the piece on the destination belongs to the side that moved;
    and the number of occupied cells is unchanged by a step and one less
    after a jump, so never larger. *)
Theorem apply_move_preserves_wf b side ms mv :
  wf_board b -> get_all_moves b side = Ok ms -> In mv ms ->
  exists nb,
    apply_move b mv = Ok nb /\
    wf_board nb /\
    friendly side (cell_at b (fst (fst mv)) (snd (fst mv))) /\
    friendly side (cell_at nb (fst (snd mv)) (snd (snd mv))) /\
    occupied nb = occupied b - (if is_jump mv then 1 else 0) /\
    occupied nb <= occupied b.
Proof.
  intros Hwf Hms Hin.
  rewrite get_all_moves_ok in Hms by apply Hwf. injection Hms as <-.
  destruct (apply_generated_move b side mv Hwf Hin) as (_ & Ha & Hw & Hf & Hf' & Ho).
  exists (moved_board b mv). repeat split; try done; try apply Hw.
  rewrite Ho. destruct (is_jump mv); lia.
Qed.

(** ** The search returns on well-formed boards *)

Lemma minimax_max_cons rec b depth mv rest u :
  minimax_max rec b depth (mv :: rest) u =
  (new_b ← apply_move b mv;
   child_val ← rec new_b (depth - 1) false;
   minimax_max rec b depth rest (score_max u child_val)).
Proof. reflexivity. Qed.

Lemma minimax_min_cons rec b depth mv rest u :
  minimax_min rec b depth (mv :: rest) u =
  (new_b ← apply_move b mv;
   child_val ← rec new_b (depth - 1) true;
   minimax_min rec b depth rest (score_min u child_val)).
Proof. reflexivity. Qed.

Section Totality.
Variable rec : board -> Z -> bool -> result score.
Variables (b : board) (depth : Z) (side : string).
Hypothesis b_wf : wf_board b.
Hypothesis rec_total :
  forall nb maxi, wf_board nb -> exists v, rec nb (depth - 1) maxi = Ok v.

Lemma minimax_max_total moves u :
  (forall mv, In mv moves -> In mv (all_moves b side)) ->
  exists v, minimax_max rec b depth moves u = Ok v.
Proof.
  revert u. induction moves as [|mv rest IH]; intros u Hin.
  - by exists u.
  - rewrite minimax_max_cons.
    destruct (apply_generated_move b side mv b_wf) as (_ & -> & Hw & _);
      [apply Hin; by left|].
    simpl. destruct (rec_total (moved_board b mv) false Hw) as [c ->]. simpl.
    apply IH. intros mv' H. apply Hin. by right.
Qed.

Lemma minimax_min_total moves u :
  (forall mv, In mv moves -> In mv (all_moves b side)) ->
  exists v, minimax_min rec b depth moves u = Ok v.
Proof.
  revert u. induction moves as [|mv rest IH]; intros u Hin.
  - by exists u.
  - rewrite minimax_min_cons.
    destruct (apply_generated_move b side mv b_wf) as (_ & -> & Hw & _);
      [apply Hin; by left|].
    simpl. destruct (rec_total (moved_board b mv) true Hw) as [c ->]. simpl.
    apply IH. intros mv' H. apply Hin. by right.
Qed.
End Totality.

(** With a call stack deeper than [depth], plain minimax returns a score on
    every well-formed board. *)
Lemma minimax_total fuel :
  forall b depth maxi,
    wf_board b -> 0 <= depth -> (Z.to_nat depth < fuel)%nat ->
    exists v, minimax fuel b depth maxi = Ok v.
Proof.
  induction fuel as [|fuel IH]; intros b depth maxi Hwf Hd Hfuel; [lia|].
  simpl. destruct (Z.eqb_spec depth 0) as [->|Hne].
  - rewrite evaluate_ok by apply Hwf. simpl. eauto.
  - rewrite get_all_moves_ok by apply Hwf. simpl.
    destruct (all_moves b _) as [|mv moves] eqn:Em; [eauto|].
    assert (forall nb maxi', wf_board nb ->
              exists v, minimax fuel nb (depth - 1) maxi' = Ok v) as Hrec
      by (intros; apply IH; [done|lia|lia]).
    destruct maxi.
    + apply (minimax_max_total _ b depth "red" Hwf Hrec). intros. by rewrite Em.
    + apply (minimax_min_total _ b depth "black" Hwf Hrec). intros. by rewrite Em.
Qed.

(** C1: whenever the unpruned minimax returns a score, the alpha-beta
    search started with the full window returns that same score; and on a
    well-formed board, for a depth that is not negative and a deep enough
    call stack, minimax does return a score. *)
Theorem alpha_beta_equals_minimax fuel b depth maxi :
  (forall v, minimax fuel b depth maxi = Ok v ->
     exists m, alpha_beta fuel b depth NegInf PosInf maxi = Ok (v, m)) /\
  (wf_board b -> 0 <= depth -> (Z.to_nat depth < fuel)%nat ->
     exists v, minimax fuel b depth maxi = Ok v).
Proof.
  split.
  - intros v Hmm.
    destruct (alpha_beta_within fuel b depth NegInf PosInf maxi v eq_refl Hmm)
      as (v' & m & Hab & Hw).
    apply within_full_window in Hw as ->. eauto.
  - apply minimax_total.
Qed.

(** ** Terminal cases of the search *)

(** C3: at a depth above zero, when the side to move has no legal move the
    search returns [-inf] with no move for Red and [inf] with no move for
    Black, and [find_best_move] returns no move. *)
Theorem no_moves_terminal fuel b depth alpha beta side :
  side = "red"%string \/ side = "black"%string ->
  0 < depth ->
  get_all_moves b side = Ok [] ->
  alpha_beta (S fuel) b depth alpha beta (side =? "red")%string =
    Ok (if (side =? "red")%string then NegInf else PosInf, None) /\
  find_best_move (S fuel) b side depth = Ok None.
Proof.
  intros Hside Hd Hmoves.
  assert (alpha_beta (S fuel) b depth alpha beta (side =? "red")%string =
          Ok (if (side =? "red")%string then NegInf else PosInf, None)) as Hab.
  { simpl. destruct (Z.eqb_spec depth 0) as [->|_]; [lia|].
    destruct Hside as [-> | ->]; simpl; by rewrite Hmoves. }
  split; [done|].
  unfold find_best_move.
  assert (alpha_beta (S fuel) b depth NegInf PosInf
            (if (side =? "red")%string then true else false) =
          Ok (if (side =? "red")%string then NegInf else PosInf, None)) as ->; [|done].
  simpl. destruct (Z.eqb_spec depth 0) as [->|_]; [lia|].
  destruct Hside as [-> | ->]; simpl; by rewrite Hmoves.
Qed.

(** C4, as stated, fails at a negative depth: the empty board searched at
    depth -1 is not evaluated (that would give 0) but treated as a node
    without moves. *)
Lemma negative_depth_not_evaluated :
  -1 <= 0 /\
  evaluate empty_board = Ok 0 /\
  alpha_beta 1 empty_board (-1) NegInf PosInf true = Ok (NegInf, None) /\
  alpha_beta 1 empty_board (-1) NegInf PosInf true <> Ok (Fin 0, None).
Proof. repeat split; done. Qed.

(** C4, amended: at depth 0 the search returns the evaluation of the board
    and no move without any recursive call (a call stack of depth one is
    enough, whatever the window and the side); a negative depth does not
    take this exit, the node is expanded like any inner node, and when the
    side has no move the result is the infinite sentinel. *)
Theorem depth_zero_evaluates fuel b alpha beta maxi :
  alpha_beta 1 b 0 alpha beta maxi = (s ← evaluate b; Ok (Fin s, None)) /\
  alpha_beta (S fuel) b 0 alpha beta maxi = alpha_beta 1 b 0 alpha beta maxi /\
  (wf_board b ->
   alpha_beta (S fuel) b 0 alpha beta maxi = Ok (Fin (material b), None)) /\
  (forall depth, depth < 0 ->
   get_all_moves b (if maxi then "red" else "black")%string = Ok [] ->
   alpha_beta (S fuel) b depth alpha beta maxi =
     Ok (if maxi then NegInf else PosInf, None)).
Proof.
  repeat split.
  - intros [Hs _]. simpl. by rewrite evaluate_ok.
  - intros depth Hd Hmoves. simpl.
    destruct (Z.eqb_spec depth 0) as [->|_]; [lia|].
    by rewrite Hmoves.
Qed.

(** C2 fails on the code: Red has a legal move, yet every move loses, no
    child score is strictly above the initial [-inf], and the search at
    depth 3 returns no move. *)
Theorem forced_loss_returns_no_move :
  wf_board forced_loss_board /\
  get_all_moves forced_loss_board "red" = Ok [((7, 0), (6, 1))] /\
  alpha_beta 4 forced_loss_board 3 NegInf PosInf true = Ok (NegInf, None) /\
  find_best_move 4 forced_loss_board "red" 3 = Ok None.
Proof. repeat split; vm_compute; reflexivity. Qed.

(** ** [apply_move] on the heap computes the pure [apply_move] *)

Lemma norm_index_lt len i n : norm_index len i = Some n -> (n < len)%nat.
Proof.
  unfold norm_index.
  destruct (Z.leb_spec 0 i).
  - destruct (Z.ltb_spec i (Z.of_nat len)); intros [= <-]. lia.
  - destruct (Z.leb_spec (- Z.of_nat len) i); intros [= <-]. lia.
Qed.

Lemma view_app_l h extra bo :
  valid_refs h bo -> view (h ++ extra) bo = view h bo.
Proof.
  intros Hv. unfold view. apply map_ext_in. intros a Ha.
  unfold valid_refs in Hv. rewrite Forall_forall in Hv.
  unfold deref. rewrite lookup_app_l; [done|].
  apply Hv. by apply list_elem_of_In.
Qed.

Lemma copy_rows_eq h bo :
  valid_refs h bo ->
  copy_rows h bo = (h ++ view h bo, seq (length h) (length bo)).
Proof.
  revert h. induction bo as [|a rest IH]; intros h Hv; simpl.
  - by rewrite app_nil_r.
  - apply Forall_cons in Hv as [Ha Hrest].
    rewrite IH.
    + rewrite length_app. simpl. rewrite Nat.add_1_r, <- app_assoc. simpl.
      by rewrite view_app_l.
    + eapply Forall_impl; [exact Hrest|]. intros x Hx. simpl in Hx.
      rewrite length_app. lia.
Qed.

Lemma view_fresh h rows :
  view (h ++ rows) (seq (length h) (length rows)) = rows.
Proof.
  unfold view. apply list_eq. intros n.
  rewrite list_lookup_fmap.
  destruct (rows !! n) as [rw|] eqn:E.
  - rewrite lookup_seq_lt by (by eapply lookup_lt_Some). simpl.
    unfold deref. rewrite lookup_app_r by lia.
    replace (length h + n - length h)%nat with n by lia. by rewrite E.
  - rewrite lookup_seq_ge; [done|]. by apply lookup_ge_None.
Qed.

Lemma heap_getcell_fresh h rows r c :
  heap_getcell (h ++ rows) (seq (length h) (length rows)) r c = getcell rows r c.
Proof.
  unfold heap_getcell, getcell, py_index. rewrite length_seq.
  destruct (norm_index (length rows) r) as [n|] eqn:E; [|done].
  apply norm_index_lt in E.
  rewrite lookup_seq_lt by done.
  destruct (lookup_lt_is_Some_2 rows n E) as [rw Hrw]. rewrite Hrw. simpl.
  unfold deref. rewrite lookup_app_r by lia.
  replace (length h + n - length h)%nat with n by lia. by rewrite Hrw.
Qed.

Lemma heap_setcell_fresh h rows r c v :
  heap_setcell (h ++ rows) (seq (length h) (length rows)) r c v =
  (rows' ← setcell rows r c v; Ok (h ++ rows')).
Proof.
  unfold heap_setcell, setcell, py_index. rewrite length_seq.
  destruct (norm_index (length rows) r) as [n|] eqn:E; [|done].
  pose proof (norm_index_lt _ _ _ E) as Hn.
  rewrite lookup_seq_lt by done.
  destruct (lookup_lt_is_Some_2 rows n Hn) as [rw Hrw]. rewrite Hrw. simpl.
  unfold deref. rewrite lookup_app_r by lia.
  replace (length h + n - length h)%nat with n by lia. rewrite Hrw. simpl.
  destruct (py_setitem rw c v) as [rw'| |]; simpl; try done.
  unfold py_setitem. rewrite E. simpl.
  f_equal. rewrite insert_app_r_alt by lia.
  by replace (length h + n - length h)%nat with n by lia.
Qed.

Lemma setcell_length rows r c v rows' :
  setcell rows r c v = Ok rows' -> length rows' = length rows.
Proof.
  unfold setcell, py_setitem.
  destruct (py_index rows r) as [rw| |]; simpl; try discriminate.
  destruct (norm_index (length rw) c); simpl; try discriminate.
  destruct (norm_index (length rows) r); simpl; try discriminate.
  intros [= <-]. by rewrite length_insert.
Qed.

Ltac heap_write :=
  rewrite heap_setcell_fresh;
  match goal with
  | |- context [setcell ?rows ?r ?c ?v] =>
      let E := fresh "E" in
      destruct (setcell rows r c v) as [?| |] eqn:E; simpl; try done;
      rewrite <- ?(setcell_length _ _ _ _ _ E)
  end.

(** The heap program computes the pure [apply_move] of the board it was
    given, in fresh row objects appended to the heap. *)
Lemma heap_apply_move_eq h bo mv :
  valid_refs h bo ->
  heap_apply_move h bo mv =
  (nb ← apply_move (view h bo) mv;
   Ok (h ++ (nb : board), seq (length h) (length bo))).
Proof.
  intros Hv. destruct mv as [[r1 c1] [r2 c2]].
  unfold heap_apply_move, apply_move. rewrite copy_rows_eq by done.
  assert (length bo = length (view h bo)) as -> by (unfold view; by rewrite length_map).
  generalize (view h bo) as rows. intros rows.
  rewrite heap_getcell_fresh.
  destruct (getcell rows r1 c1) as [piece| |]; simpl; try done.
  heap_write. heap_write.
  destruct (Z.abs (r2 - r1) =? 2).
  - heap_write.
    destruct ((piece =? 1) && (r2 =? 0)); [|destruct ((piece =? 2) && (r2 =? 7))];
      try done; heap_write.
  - simpl.
    destruct ((piece =? 1) && (r2 =? 0)); [|destruct ((piece =? 2) && (r2 =? 7))];
      try done; heap_write.
Qed.

Lemma apply_move_length b mv nb :
  apply_move b mv = Ok nb -> length nb = length b.
Proof.
  destruct mv as [[r1 c1] [r2 c2]]. unfold apply_move.
  destruct (getcell b r1 c1) as [piece| |]; simpl; try discriminate.
  destruct (setcell b r1 c1 0) as [b1| |] eqn:E1; simpl; try discriminate.
  destruct (setcell b1 r2 c2 piece) as [b2| |] eqn:E2; simpl; try discriminate.
  apply setcell_length in E1, E2.
  assert (forall b3, length b3 = length b ->
    (if (piece =? 1) && (r2 =? 0) then setcell b3 r2 c2 3
     else if (piece =? 2) && (r2 =? 7) then setcell b3 r2 c2 4
     else Ok b3) = Ok nb -> length nb = length b) as Hcrown.
  { intros b3 H3.
    destruct ((piece =? 1) && (r2 =? 0)); [|destruct ((piece =? 2) && (r2 =? 7))].
    - intros H. apply setcell_length in H. congruence.
    - intros H. apply setcell_length in H. congruence.
    - intros [= <-]. done. }
  destruct (Z.abs (r2 - r1) =? 2).
  - destruct (setcell b2 _ _ 0) as [b3| |] eqn:E3; simpl; try discriminate.
    apply setcell_length in E3. apply Hcrown. congruence.
  - simpl. apply Hcrown. congruence.
Qed.

(** C8: [apply_move] leaves every row object that existed before the call
    as it was, so the board it was given reads the same afterwards, and the
    board it returns is the one the pure model computes; on a board of
    eight rows of eight cells and a move between on-board squares the call
    returns, and every on-board cell of the result other than the origin,
    the destination and, for a move two rows long, the midpoint, holds the
    tag it held in the input. *)
Theorem apply_move_frame h bo mv :
  valid_refs h bo ->
  (forall h' nb,
     heap_apply_move h bo mv = Ok (h', nb) ->
     (forall a, (a < length h)%nat -> h' !! a = h !! a) /\
     view h' bo = view h bo /\
     apply_move (view h bo) mv = Ok (view h' nb)) /\
  (shape_ok (view h bo) = true -> move_on_board mv ->
   exists h' nb,
     heap_apply_move h bo mv = Ok (h', nb) /\
     forall r c,
       on_board r c ->
       (r, c) <> fst mv -> (r, c) <> snd mv ->
       (is_jump mv = true -> (r, c) <> midpoint mv) ->
       cell_at (view h' nb) r c = cell_at (view h bo) r c).
Proof.
  intros Hv. rewrite heap_apply_move_eq by done.
  assert (length bo = length (view h bo)) as Hlen
    by (unfold view; by rewrite length_map).
  split.
  - intros h' nb.
    destruct (apply_move (view h bo) mv) as [B'| |] eqn:E; simpl; try discriminate.
    intros [= <- <-]. apply apply_move_length in E.
    split; [|split].
    + intros a Ha. by rewrite lookup_app_l.
    + by apply view_app_l.
    + f_equal. rewrite Hlen, <- E. by rewrite view_fresh.
  - intros Hs Hmv. rewrite apply_move_ok by done. simpl.
    eexists _, _. split; [done|].
    intros r c Hrc Ho Hd Hm.
    rewrite Hlen, <- (moved_board_length (view h bo) mv), view_fresh.
    rewrite moved_board_cell by done.
    rewrite decide_False by done.
    destruct (is_jump mv).
    + rewrite bool_decide_eq_false_2 by auto. simpl. by rewrite decide_False.
    + simpl. by rewrite decide_False.
Qed.

(** ** The theorems at concrete positions *)

Lemma initial_board_wf : wf_board initial_board.
Proof. split; reflexivity. Qed.

Lemma alpha_beta_equals_minimax_witness :
  wf_board initial_board /\
  exists v m,
    minimax 3 initial_board 2 true = Ok v /\
    alpha_beta 3 initial_board 2 NegInf PosInf true = Ok (v, m).
Proof.
  split; [exact initial_board_wf|].
  destruct (alpha_beta_equals_minimax 3 initial_board 2 true) as [Hsame Hret].
  destruct Hret as [v Hv]; [exact initial_board_wf|lia|simpl; lia|].
  destruct (Hsame v Hv) as [m Hm]. exists v, m. split; assumption.
Defined.

Lemma no_moves_terminal_witness :
  get_all_moves empty_board "red" = Ok [] /\
  alpha_beta 1 empty_board 1 NegInf PosInf true = Ok (NegInf, None) /\
  find_best_move 1 empty_board "red" 1 = Ok None.
Proof.
  split; [reflexivity|].
  exact (no_moves_terminal 0 empty_board 1 NegInf PosInf "red"
           (or_introl eq_refl) eq_refl eq_refl).
Defined.

Lemma depth_zero_evaluates_witness :
  wf_board initial_board /\
  alpha_beta 1 initial_board 0 NegInf PosInf true =
    Ok (Fin (material initial_board), None).
Proof.
  split; [exact initial_board_wf|].
  destruct (depth_zero_evaluates 0 initial_board NegInf PosInf true)
    as (_ & _ & Hwf & _).
  exact (Hwf initial_board_wf).
Defined.

Lemma get_all_moves_characterised_witness :
  wf_board initial_board /\
  exists ms,
    get_all_moves initial_board "red" = Ok ms /\
    forall r c r' c', In ((r, c), (r', c')) ms ->
      on_board r c /\ friendly "red" (cell_at initial_board r c) /\
      on_board r' c' /\ cell_at initial_board r' c' = 0.
Proof.
  split; [exact initial_board_wf|].
  destruct (get_all_moves_characterised initial_board "red" initial_board_wf)
    as (ms & Hms & _ & _ & _ & Hclosed).
  exists ms. split; assumption.
Defined.

Lemma apply_move_jump_clears_midpoint_witness :
  Z.abs (1 - 3) = 2 /\
  exists nb,
    apply_move jump_board ((3, 3), (1, 1)) = Ok nb /\
    cell_at nb ((3 + 1) / 2) ((3 + 1) / 2) = 0 /\
    cell_at nb 3 3 = 0 /\
    cell_at nb 1 1 = crowned (cell_at jump_board 3 3) 1.
Proof.
  split; [reflexivity|].
  apply (apply_move_jump_clears_midpoint jump_board 3 3 1 1);
    [reflexivity|unfold on_board; lia|unfold on_board; lia|reflexivity].
Defined.

Lemma apply_move_promotion_witness :
  shape_ok crown_board = true /\
  exists nb,
    apply_move crown_board ((1, 1), (0, 0)) = Ok nb /\ cell_at nb 0 0 = 3.
Proof.
  split; [reflexivity|].
  destruct (apply_move_promotion crown_board 1 1 0 0) as (nb & Hnb & Hred & _);
    [reflexivity|unfold on_board; lia|unfold on_board; lia|].
  exists nb. split; [exact Hnb|]. apply Hred; reflexivity.
Defined.

Lemma apply_move_frame_witness :
  valid_refs initial_board (seq 0 8) /\
  exists h' nb,
    heap_apply_move initial_board (seq 0 8) ((0, 0), (1, 1)) = Ok (h', nb) /\
    view h' (seq 0 8) = initial_board /\
    cell_at (view h' nb) 2 2 = 3.
Proof.
  assert (valid_refs initial_board (seq 0 8)) as Hv
    by (unfold valid_refs; simpl; repeat (constructor; [lia|]); constructor).
  split; [exact Hv|].
  destruct (apply_move_frame initial_board (seq 0 8) ((0, 0), (1, 1)) Hv)
    as [Hkeep Hret].
  destruct Hret as (h' & nb & Hcall & Hframe);
    [reflexivity|split; unfold on_board; simpl; lia|].
  exists h', nb. split; [exact Hcall|].
  destruct (Hkeep h' nb Hcall) as (_ & Hview & _).
  split; [rewrite Hview; reflexivity|].
  rewrite (Hframe 2 2); [reflexivity|unfold on_board; lia|simpl; congruence|
                         simpl; congruence|simpl; discriminate].
Defined.

Lemma evaluate_material_bounds_witness :
  wf_board initial_board /\
  evaluate initial_board = Ok (material initial_board) /\
  Z.abs (material initial_board) <= 8 * 64.
Proof.
  split; [exact initial_board_wf|].
  destruct (evaluate_material_bounds initial_board initial_board_wf)
    as (Heval & _ & Hbound & _).
  split; assumption.
Defined.

Lemma apply_move_preserves_wf_witness :
  wf_board initial_board /\
  In ((0, 0), (1, 1)) (all_moves initial_board "red") /\
  exists nb,
    apply_move initial_board ((0, 0), (1, 1)) = Ok nb /\
    wf_board nb /\ occupied nb <= occupied initial_board.
Proof.
  split; [exact initial_board_wf|].
  assert (In ((0, 0), (1, 1)) (all_moves initial_board "red")) as Hin
    by (vm_compute; left; reflexivity).
  split; [exact Hin|].
  destruct (apply_move_preserves_wf initial_board "red"
              (all_moves initial_board "red") ((0, 0), (1, 1))
              initial_board_wf eq_refl Hin)
    as (nb & Hnb & Hwf & _ & _ & _ & Hle).
  exists nb. repeat split; try assumption; apply Hwf.
Defined.

(** * Part IV: further properties of the program *)

(** ** What the search returns *)

Lemma max_loop_cons rec b depth beta mv rest value best alpha :
  max_loop rec b depth beta (mv :: rest) value best alpha =
  (new_b ← apply_move b mv;
   cr ← rec new_b (depth - 1) alpha beta false;
   let child_val := fst (cr : search_result) in
   let improved := score_ltb value child_val in
   let value := if improved then child_val else value in
   let best_move := if improved then Some mv else best in
   let alpha := score_max alpha value in
   if score_leb beta alpha then Ok (value, best_move)
   else max_loop rec b depth beta rest value best_move alpha).
Proof. reflexivity. Qed.

Lemma min_loop_cons rec b depth alpha mv rest value best beta :
  min_loop rec b depth alpha (mv :: rest) value best beta =
  (new_b ← apply_move b mv;
   cr ← rec new_b (depth - 1) alpha beta true;
   let child_val := fst (cr : search_result) in
   let improved := score_ltb child_val value in
   let value := if improved then child_val else value in
   let best_move := if improved then Some mv else best in
   let beta := score_min beta value in
   if score_leb beta alpha then Ok (value, best_move)
   else min_loop rec b depth alpha rest value best_move beta).
Proof. reflexivity. Qed.

Lemma score_lt_trans_le a b c : score_le a b -> score_lt b c -> score_lt a c.
Proof. intros. score_lia. Qed.

Lemma score_le_refl a : score_le a a.
Proof. score_lia. Qed.

Lemma score_ltb_false_le a b : score_ltb a b = false -> score_le b a.
Proof. intros. score_lia. Qed.

Section LoopResults.
Variable rec : board -> Z -> score -> score -> bool -> result search_result.
Variables (b : board) (depth : Z).

(** The maximizing loop returns either its starting value and move, or a
    move of the list together with the score the recursive call gave for
    it, which is then above the starting value. *)
Lemma max_loop_result beta moves value best alpha v m :
  max_loop rec b depth beta moves value best alpha = Ok (v, m) ->
  (v = value /\ m = best) \/
  (score_lt value v /\
   exists mv nb a' m',
     In mv moves /\ m = Some mv /\ apply_move b mv = Ok nb /\
     rec nb (depth - 1) a' beta false = Ok (v, m')).
Proof.
  revert value best alpha.
  induction moves as [|mv rest IH]; intros value best alpha.
  - intros [= <- <-]. by left.
  - rewrite max_loop_cons.
    destruct (apply_move b mv) as [nb| |] eqn:Ea; simpl; try discriminate.
    destruct (rec nb (depth - 1) alpha beta false) as [[c m']| |] eqn:Er;
      simpl; try discriminate.
    assert (score_ltb value c = true ->
            score_lt value c /\
            exists mv0 nb0 a' m'0,
              In mv0 (mv :: rest) /\ Some mv = Some mv0 /\
              apply_move b mv0 = Ok nb0 /\
              rec nb0 (depth - 1) a' beta false = Ok (c, m'0)) as Hnew.
    { intros Hlt. split; [done|]. exists mv, nb, alpha, m'. split; [by left|done]. }
    destruct (score_leb beta _).
    + intros [= <- <-]. destruct (score_ltb value c) eqn:Hlt; [right|left]; auto.
    + intros H. apply IH in H as [[-> ->]|(Hlt & mv0 & nb0 & a' & m0 & Hin & -> & Hap & Hrec)].
      * destruct (score_ltb value c) eqn:Hlt; [right|left]; auto.
      * right. split.
        -- destruct (score_ltb value c) eqn:Hc; [|done].
           eapply score_lt_trans_le; [|exact Hlt]. by apply score_lt_le.
        -- exists mv0, nb0, a', m0. split; [by right|done].
Qed.

Lemma min_loop_result alpha moves value best beta v m :
  min_loop rec b depth alpha moves value best beta = Ok (v, m) ->
  (v = value /\ m = best) \/
  (score_lt v value /\
   exists mv nb b' m',
     In mv moves /\ m = Some mv /\ apply_move b mv = Ok nb /\
     rec nb (depth - 1) alpha b' true = Ok (v, m')).
Proof.
  revert value best beta.
  induction moves as [|mv rest IH]; intros value best beta.
  - intros [= <- <-]. by left.
  - rewrite min_loop_cons.
    destruct (apply_move b mv) as [nb| |] eqn:Ea; simpl; try discriminate.
    destruct (rec nb (depth - 1) alpha beta true) as [[c m']| |] eqn:Er;
      simpl; try discriminate.
    assert (score_ltb c value = true ->
            score_lt c value /\
            exists mv0 nb0 b' m'0,
              In mv0 (mv :: rest) /\ Some mv = Some mv0 /\
              apply_move b mv0 = Ok nb0 /\
              rec nb0 (depth - 1) alpha b' true = Ok (c, m'0)) as Hnew.
    { intros Hlt. split; [done|]. exists mv, nb, beta, m'. split; [by left|done]. }
    destruct (score_leb _ alpha).
    + intros [= <- <-]. destruct (score_ltb c value) eqn:Hlt; [right|left]; auto.
    + intros H. apply IH in H as [[-> ->]|(Hlt & mv0 & nb0 & a' & m0 & Hin & -> & Hap & Hrec)].
      * destruct (score_ltb c value) eqn:Hlt; [right|left]; auto.
      * right. split.
        -- destruct (score_ltb c value) eqn:Hc; [|done].
           unfold score_lt in *. score_lia.
        -- exists mv0, nb0, a', m0. split; [by right|done].
Qed.
End LoopResults.

(** A move returned by the search is one of the generated moves of the
    node, and the returned score is the score the search gave to the board
    that move leads to. *)
Theorem alpha_beta_returns_generated_move fuel b depth alpha beta maxi v mv :
  alpha_beta fuel b depth alpha beta maxi = Ok (v, Some mv) ->
  depth <> 0 /\
  exists ms nb a' b' m',
    get_all_moves b (if maxi then "red" else "black")%string = Ok ms /\
    In mv ms /\
    apply_move b mv = Ok nb /\
    alpha_beta (Nat.pred fuel) nb (depth - 1) a' b' (negb maxi) = Ok (v, m').
Proof.
  destruct fuel as [|fuel]; [discriminate|]. simpl.
  destruct (Z.eqb_spec depth 0) as [->|Hd].
  - destruct (evaluate b); simpl; discriminate.
  - destruct (get_all_moves b _) as [[|mv0 moves]| |]; simpl; try discriminate.
    intros H. split; [done|].
    destruct maxi.
    + apply max_loop_result in H.
      destruct H as [[_ [=]]|(_ & mv1 & nb & a' & m' & Hin & [= <-] & Ha & Hr)].
      exists (mv0 :: moves), nb, a', beta, m'. auto.
    + apply min_loop_result in H.
      destruct H as [[_ [=]]|(_ & mv1 & nb & b' & m' & Hin & [= <-] & Ha & Hr)].
      exists (mv0 :: moves), nb, alpha, b', m'. auto.
Qed.

(** Below the root evaluation, a result without a move always carries the
    losing sentinel of the side to move: any better score comes with the
    move that reached it. *)
Theorem alpha_beta_no_move_is_loss fuel b depth alpha beta maxi v :
  depth <> 0 ->
  alpha_beta fuel b depth alpha beta maxi = Ok (v, None) ->
  v = if maxi then NegInf else PosInf.
Proof.
  intros Hd. destruct fuel as [|fuel]; [discriminate|]. simpl.
  destruct (Z.eqb_spec depth 0) as [->|_]; [done|].
  destruct (get_all_moves b _) as [[|mv0 moves]| |]; simpl; try discriminate.
  - by intros [= <-].
  - destruct maxi; intros H.
    + apply max_loop_result in H; destruct H as [[-> _]|(_ & ? & ? & ? & ? & _ & [=] & _)]. done.
    + apply min_loop_result in H; destruct H as [[-> _]|(_ & ? & ? & ? & ? & _ & [=] & _)]. done.
Qed.

(** At a negative depth the depth test never succeeds, so every leaf is a
    node without moves: whatever the search returns is one of the two
    infinite sentinels, never an evaluation. *)
Theorem negative_depth_returns_sentinel fuel :
  forall b depth alpha beta maxi v m,
    depth < 0 ->
    alpha_beta fuel b depth alpha beta maxi = Ok (v, m) ->
    is_sentinel v.
Proof.
  induction fuel as [|fuel IH]; intros b depth alpha beta maxi v m Hd;
    [discriminate|].
  simpl. destruct (Z.eqb_spec depth 0) as [->|_]; [lia|].
  destruct (get_all_moves b _) as [[|mv0 moves]| |]; simpl; try discriminate.
  - intros [= <- _]. destruct maxi; [by left|by right].
  - destruct maxi; intros H.
    + apply max_loop_result in H; destruct H as [[-> _]|(_ & ? & ? & ? & ? & _ & _ & _ & Hr)];
        [by left|].
      apply IH in Hr; [done|lia].
    + apply min_loop_result in H; destruct H as [[-> _]|(_ & ? & ? & ? & ? & _ & _ & _ & Hr)];
        [by right|].
      apply IH in Hr; [done|lia].
Qed.

(** The search is sound for every window, not only the full one: with
    [alpha < beta], if plain minimax gives [v] the search returns a score
    [v'] that is [v] itself when it falls strictly inside the window, is
    at least [v] when it is at most [alpha], and at most [v] when it is at
    least [beta]. *)
Theorem alpha_beta_window_sound fuel b depth alpha beta maxi v :
  score_lt alpha beta ->
  minimax fuel b depth maxi = Ok v ->
  exists v' m,
    alpha_beta fuel b depth alpha beta maxi = Ok (v', m) /\
    (score_lt alpha v' -> score_lt v' beta -> v' = v) /\
    (score_le v' alpha -> score_le v v') /\
    (score_le beta v' -> score_le v' v).
Proof.
  intros Hwin Hmm.
  destruct (alpha_beta_within fuel b depth alpha beta maxi v Hwin Hmm)
    as (v' & m & Hab & H1 & H2 & H3).
  exists v', m. auto.
Qed.

(** ** Coordinates off the board *)

Lemma wrap8_on_board r c : index_ok r -> index_ok c -> on_board (wrap8 r) (wrap8 c).
Proof.
  unfold index_ok, on_board, wrap8. intros Hr Hc.
  destruct (Z.ltb_spec r 0), (Z.ltb_spec c 0); lia.
Qed.

Lemma norm_index_wrap8 i :
  index_ok i -> norm_index 8 i = Some (Z.to_nat (wrap8 i)).
Proof.
  unfold index_ok, norm_index, wrap8. intros Hi.
  destruct (Z.leb_spec 0 i), (Z.ltb_spec i 0); try lia.
  - destruct (Z.ltb_spec i (Z.of_nat 8)); [done|lia].
  - destruct (Z.leb_spec (- Z.of_nat 8) i); [|lia]. f_equal. lia.
Qed.

Lemma norm_index_off i : ~ index_ok i -> norm_index 8 i = None.
Proof.
  unfold index_ok, norm_index. intros Hi.
  destruct (Z.leb_spec 0 i).
  - destruct (Z.ltb_spec i (Z.of_nat 8)); [lia|done].
  - destruct (Z.leb_spec (- Z.of_nat 8) i); [lia|done].
Qed.

Lemma index_ok_dec i : index_ok i \/ ~ index_ok i.
Proof. unfold index_ok. lia. Qed.

Lemma getcell_index_ok b r c :
  shape_ok b = true -> index_ok r -> index_ok c ->
  getcell b r c = Ok (cell_at b (wrap8 r) (wrap8 c)).
Proof.
  intros Hs Hr Hc. destruct (wrap8_on_board r c Hr Hc) as [Hr' Hc'].
  destruct (shape_ok_lookup b (wrap8 r) Hs Hr') as (rw & Hrw & Hlen).
  unfold getcell, cell_at, py_index.
  rewrite (shape_ok_length b Hs), norm_index_wrap8, Hrw by done. simpl.
  rewrite Hlen, norm_index_wrap8 by done.
  destruct (rw !! Z.to_nat (wrap8 c)) eqn:E; [done|].
  apply lookup_ge_None in E. lia.
Qed.

Lemma getcell_off b r c :
  shape_ok b = true -> ~ (index_ok r /\ index_ok c) ->
  getcell b r c = IndexError.
Proof.
  intros Hs Hoff. unfold getcell, py_index. rewrite (shape_ok_length b Hs).
  destruct (index_ok_dec r) as [Hr|Hr].
  - destruct (wrap8_on_board r 0 Hr) as [Hr' _]; [unfold index_ok; lia|].
    destruct (shape_ok_lookup b (wrap8 r) Hs Hr') as (rw & Hrw & Hlen).
    rewrite norm_index_wrap8, Hrw by done. simpl.
    rewrite Hlen, norm_index_off; [done|tauto].
  - by rewrite norm_index_off.
Qed.

Lemma setcell_index_ok b r c v :
  shape_ok b = true -> index_ok r -> index_ok c ->
  setcell b r c v = Ok (set_at b (wrap8 r) (wrap8 c) v).
Proof.
  intros Hs Hr Hc. destruct (wrap8_on_board r c Hr Hc) as [Hr' Hc'].
  destruct (shape_ok_lookup b (wrap8 r) Hs Hr') as (rw & Hrw & Hlen).
  unfold setcell, set_at, py_index, py_setitem.
  rewrite (shape_ok_length b Hs), norm_index_wrap8, Hrw by done. simpl.
  rewrite Hlen, norm_index_wrap8 by done. simpl.
  f_equal. apply list_eq. intros n.
  destruct (decide (n = Z.to_nat (wrap8 r))) as [->|Hne].
  - rewrite list_lookup_insert_eq by (apply lookup_lt_Some in Hrw; lia).
    rewrite list_lookup_alter_eq, Hrw. done.
  - rewrite list_lookup_insert_ne by done.
    rewrite list_lookup_alter_ne by done. done.
Qed.

Lemma setcell_off b r c v :
  shape_ok b = true -> ~ (index_ok r /\ index_ok c) ->
  setcell b r c v = IndexError.
Proof.
  intros Hs Hoff. unfold setcell, py_index, py_setitem.
  rewrite (shape_ok_length b Hs).
  destruct (index_ok_dec r) as [Hr|Hr].
  - destruct (wrap8_on_board r 0 Hr) as [Hr' _]; [unfold index_ok; lia|].
    destruct (shape_ok_lookup b (wrap8 r) Hs Hr') as (rw & Hrw & Hlen).
    rewrite norm_index_wrap8, Hrw by done. simpl.
    rewrite Hlen, norm_index_off; [done|tauto].
  - by rewrite norm_index_off.
Qed.

Lemma wrap8_row_apart r1 r2 :
  index_ok r1 -> index_ok r2 -> Z.abs (r2 - r1) = 2 ->
  index_ok ((r1 + r2) / 2) /\ wrap8 ((r1 + r2) / 2) <> wrap8 r2.
Proof.
  unfold index_ok, wrap8. intros H1 H2 Hj.
  assert (r2 = r1 + 2 \/ r2 = r1 - 2) as [-> | ->] by lia.
  - replace (r1 + (r1 + 2)) with ((r1 + 1) * 2) by lia. rewrite Z.div_mul by lia.
    destruct (Z.ltb_spec (r1 + 1) 0), (Z.ltb_spec (r1 + 2) 0); lia.
  - replace (r1 + (r1 - 2)) with ((r1 - 1) * 2) by lia. rewrite Z.div_mul by lia.
    destruct (Z.ltb_spec (r1 - 1) 0), (Z.ltb_spec (r1 - 2) 0); lia.
Qed.

Lemma index_ok_half c1 c2 : index_ok c1 -> index_ok c2 -> index_ok ((c1 + c2) / 2).
Proof.
  unfold index_ok. intros H1 H2. split.
  - apply Z.div_le_lower_bound; lia.
  - apply Z.div_lt_upper_bound; lia.
Qed.

(** [apply_move] on a board of eight rows of eight cells returns a board
    exactly when the four coordinates of the move are Python indices of a
    list of length 8, that is within -8..7, and raises [IndexError]
    otherwise.  A negative coordinate counts from the end: the piece is read
    at the wrapped origin and, crowned by the test on the raw row, written
    at the wrapped destination. *)
Theorem apply_move_index_error b r1 c1 r2 c2 :
  shape_ok b = true ->
  (index_ok r1 /\ index_ok c1 /\ index_ok r2 /\ index_ok c2 ->
   exists nb,
     apply_move b ((r1, c1), (r2, c2)) = Ok nb /\
     shape_ok nb = true /\
     cell_at nb (wrap8 r2) (wrap8 c2) =
       crowned (cell_at b (wrap8 r1) (wrap8 c1)) r2) /\
  (~ (index_ok r1 /\ index_ok c1 /\ index_ok r2 /\ index_ok c2) ->
   apply_move b ((r1, c1), (r2, c2)) = IndexError).
Proof.
  intros Hs. split.
  - intros (Hr1 & Hc1 & Hr2 & Hc2).
    pose proof (wrap8_on_board r1 c1 Hr1 Hc1) as Ho.
    pose proof (wrap8_on_board r2 c2 Hr2 Hc2) as Hd.
    unfold apply_move, crowned. rewrite getcell_index_ok by done. simpl.
    set (piece := cell_at b (wrap8 r1) (wrap8 c1)).
    rewrite setcell_index_ok by done. simpl.
    set (b1 := set_at b (wrap8 r1) (wrap8 c1) 0).
    assert (shape_ok b1 = true) as Hs1 by (by apply set_at_shape).
    rewrite setcell_index_ok by done. simpl.
    set (b2 := set_at b1 (wrap8 r2) (wrap8 c2) piece).
    assert (shape_ok b2 = true) as Hs2 by (by apply set_at_shape).
    assert (cell_at b2 (wrap8 r2) (wrap8 c2) = piece) as Hd2
      by (by apply cell_at_set_at_eq).
    assert (exists b3, (if Z.abs (r2 - r1) =? 2
                        then setcell b2 ((r1 + r2) / 2) ((c1 + c2) / 2) 0
                        else Ok b2) = Ok b3 /\
                       shape_ok b3 = true /\
                       cell_at b3 (wrap8 r2) (wrap8 c2) = piece) as (b3 & -> & Hs3 & Hd3).
    { destruct (Z.eqb_spec (Z.abs (r2 - r1)) 2) as [Hj|_]; [|eauto].
      destruct (wrap8_row_apart r1 r2 Hr1 Hr2 Hj) as [Hm Hne].
      pose proof (index_ok_half c1 c2 Hc1 Hc2) as Hmc.
      rewrite setcell_index_ok by done. eexists. split; [done|].
      split; [by apply set_at_shape|].
      rewrite cell_at_set_at_ne; [done|by apply wrap8_on_board|done|congruence]. }
    simpl.
    destruct ((piece =? 1) && (r2 =? 0)); [|destruct ((piece =? 2) && (r2 =? 7))].
    + rewrite setcell_index_ok by done. eexists. split; [done|].
      split; [by apply set_at_shape|by apply cell_at_set_at_eq].
    + rewrite setcell_index_ok by done. eexists. split; [done|].
      split; [by apply set_at_shape|by apply cell_at_set_at_eq].
    + eauto.
  - intros Hoff. unfold apply_move.
    destruct (index_ok_dec r1) as [Hr1|Hr1];
      [destruct (index_ok_dec c1) as [Hc1|Hc1]|];
      [|rewrite getcell_off by tauto; done..].
    rewrite getcell_index_ok by done. simpl.
    rewrite setcell_index_ok by done. simpl.
    rewrite setcell_off; [done|by apply set_at_shape|tauto].
Qed.

Lemma apply_move_index_error_witness :
  shape_ok initial_board = true /\
  (exists nb, apply_move initial_board ((-8, -8), (1, 1)) = Ok nb /\
              cell_at nb 1 1 = 3) /\
  apply_move initial_board ((0, 0), (8, 1)) = IndexError.
Proof.
  split; [reflexivity|].
  destruct (apply_move_index_error initial_board (-8) (-8) 1 1 eq_refl)
    as [Hok _].
  destruct (apply_move_index_error initial_board 0 0 8 1 eq_refl)
    as [_ Hoff].
  split.
  - destruct Hok as (nb & Hnb & _ & Hcell); [unfold index_ok; lia|].
    exists nb. split; [exact Hnb|exact Hcell].
  - apply Hoff. unfold index_ok. lia.
Defined.

(** ** What a move does to the counts and to the evaluation *)

(** The sum of any per-cell quantity over the board [apply_move] builds:
    the destination's previous content leaves the sum, a jumped-over cell
    leaves it, and the moved piece counts with its tag after crowning. *)
Lemma moved_board_sum (f : cell -> Z) b mv :
  shape_ok b = true -> move_on_board mv ->
  board_sum f (moved_board b mv) =
  board_sum f b
  + f 0
  - f (if decide (fst mv = snd mv) then 0
       else cell_at b (fst (snd mv)) (snd (snd mv)))
  - (if is_jump mv
     then f (cell_at b (fst (midpoint mv)) (snd (midpoint mv))) - f 0
     else 0)
  + f (crowned (cell_at b (fst (fst mv)) (snd (fst mv))) (fst (snd mv)))
  - f (cell_at b (fst (fst mv)) (snd (fst mv))).
Proof.
  intros Hs Hmv.
  pose proof (midpoint_on_board mv Hmv) as Hmid.
  pose proof (midpoint_row_between mv) as Hbetween.
  destruct mv as [[r1 c1] [r2 c2]]. destruct Hmv as [Ho Hd].
  simpl in Ho, Hd. unfold moved_board, midpoint, crowned in *.
  simpl fst in *. simpl snd in *.
  set (jr := (r1 + r2) / 2) in *. set (jc := (c1 + c2) / 2) in *.
  clearbody jr jc.
  set (mv := ((r1, c1), (r2, c2))) in *.
  set (piece := cell_at b r1 c1).
  assert (shape_ok (set_at b r1 c1 0) = true) as H1 by auto using set_at_shape.
  assert (shape_ok (set_at (set_at b r1 c1 0) r2 c2 piece) = true) as H2
    by auto using set_at_shape.
  destruct (is_jump mv) eqn:Hj.
  - specialize (Hmid eq_refl). destruct (Hbetween eq_refl) as [Hb1 Hb2].
    assert (shape_ok (set_at (set_at (set_at b r1 c1 0) r2 c2 piece) jr jc 0) = true)
      as H3 by auto using set_at_shape.
    assert ((r1, c1) <> (jr, jc)) by congruence.
    assert ((r2, c2) <> (jr, jc)) by congruence.
    assert ((jr, jc) <> (r2, c2)) by congruence.
    destruct ((piece =? 1) && (r2 =? 0)) eqn:E1;
      [|destruct ((piece =? 2) && (r2 =? 7)) eqn:E2];
      rewrite ?board_sum_set_at by done;
      rewrite ?cell_at_set_at by done;
      repeat case_decide; try congruence; subst piece; lia.
  - destruct ((piece =? 1) && (r2 =? 0)) eqn:E1;
      [|destruct ((piece =? 2) && (r2 =? 7)) eqn:E2];
      rewrite ?board_sum_set_at by done;
      rewrite ?cell_at_set_at by done;
      repeat case_decide; try congruence; subst piece; lia.
Qed.

Lemma moved_board_count_le (f : cell -> Z) b mv :
  shape_ok b = true -> move_on_board mv ->
  f 0 = 0 -> (forall p, 0 <= f p) -> (forall p r, f (crowned p r) = f p) ->
  board_sum f (moved_board b mv) <= board_sum f b.
Proof.
  intros Hs Hmv H0 Hpos Hcrown. rewrite moved_board_sum by done.
  rewrite Hcrown, H0.
  pose proof (Hpos (if decide (fst mv = snd mv) then 0
                    else cell_at b (fst (snd mv)) (snd (snd mv)))).
  pose proof (Hpos (cell_at b (fst (midpoint mv)) (snd (midpoint mv)))).
  destruct (is_jump mv); lia.
Qed.

(** [apply_move] never adds a piece: for any move between on-board squares
    of a well-formed board, legal or not, the result is well-formed and
    holds at most as many red pieces, black pieces and occupied cells as
    the input. *)
Theorem apply_move_never_adds_pieces b mv :
  wf_board b -> move_on_board mv ->
  exists nb,
    apply_move b mv = Ok nb /\
    wf_board nb /\
    red_count nb <= red_count b /\
    black_count nb <= black_count b /\
    occupied nb <= occupied b.
Proof.
  intros Hwf Hmv. pose proof Hwf as [Hs _].
  assert (forall p r, is_red (crowned p r) = is_red p /\
                      is_black (crowned p r) = is_black p /\
                      (crowned p r =? 0) = (p =? 0)) as Hcrown.
  { intros p r. unfold crowned, is_red, is_black.
    destruct (Z.eqb_spec p 1), (Z.eqb_spec p 2), (Z.eqb_spec r 0),
      (Z.eqb_spec r 7); subst; simpl; try done; lia. }
  exists (moved_board b mv).
  split; [by apply apply_move_ok|]. split; [by apply moved_board_wf|].
  split; [|split]; apply moved_board_count_le; try done.
  - intros p. destruct (is_red p); lia.
  - intros p r. destruct (Hcrown p r) as (-> & _). done.
  - intros p. destruct (is_black p); lia.
  - intros p r. destruct (Hcrown p r) as (_ & -> & _). done.
  - intros p. destruct (p =? 0); lia.
  - intros p r. destruct (Hcrown p r) as (_ & _ & ->). done.
Qed.

Lemma apply_move_never_adds_pieces_witness :
  wf_board initial_board /\
  exists nb,
    apply_move initial_board ((2, 2), (4, 4)) = Ok nb /\
    black_count nb <= black_count initial_board.
Proof.
  split; [exact initial_board_wf|].
  destruct (apply_move_never_adds_pieces initial_board ((2, 2), (4, 4))
              initial_board_wf)
    as (nb & Hnb & _ & _ & Hblack & _);
    [split; unfold on_board; simpl; lia|].
  exists nb. split; assumption.
Defined.

(** A move the generator returns never costs its side material: after a
    Red move the material sum is at least what it was, and at least 5 more
    after a jump; after a Black move it is at most what it was, and at
    least 5 less after a jump. *)
Theorem generated_move_material b side ms mv :
  wf_board b -> get_all_moves b side = Ok ms -> In mv ms ->
  exists nb,
    apply_move b mv = Ok nb /\
    (side = "red"%string ->
     material b <= material nb /\
     (is_jump mv = true -> material b + 5 <= material nb)) /\
    (side = "black"%string ->
     material nb <= material b /\
     (is_jump mv = true -> material nb + 5 <= material b)).
Proof.
  intros Hwf Hms Hin. pose proof Hwf as [Hs _].
  rewrite get_all_moves_ok in Hms by done. injection Hms as <-.
  destruct (apply_generated_move b side mv Hwf Hin) as (Hmv & Ha & _).
  exists (moved_board b mv). split; [done|].
  unfold material. rewrite moved_board_sum by done.
  apply in_all_moves_legal in Hin; [|done].
  destruct Hin as (r & c & dr & dc & [[Hl ->]|[Hl ->]]).
  - destruct Hl as (Ho & Hf & Hdir & Hd & He).
    destruct (direction_set_unit _ _ _ Hdir) as [Hdr Hdc].
    assert (is_jump ((r, c), (r + dr, c + dc)) = false) as ->.
    { unfold is_jump. simpl. apply Z.eqb_neq. unfold unit_step in *. lia. }
    simpl. rewrite decide_False by (unfold unit_step in *; intros [= ? ?]; lia).
    rewrite He. revert Hf. generalize (cell_at b r c) as p. intros p Hf.
    unfold friendly in Hf. unfold crowned, piece_value.
    split; intros ->; destruct Hf as [[? [-> | ->]]|[? [-> | ->]]];
      try discriminate; simpl;
      destruct (r + dr =? 0), (r + dr =? 7); simpl; split; try lia; done.
  - destruct Hl as (Ho & Hf & Hdir & Hm & Hopp & Hd & He).
    destruct (direction_set_unit _ _ _ Hdir) as [Hdr Hdc].
    assert (is_jump ((r, c), (r + 2 * dr, c + 2 * dc)) = true) as ->.
    { unfold is_jump. simpl. apply Z.eqb_eq. unfold unit_step in *. lia. }
    rewrite midpoint_of_jump. simpl.
    rewrite decide_False by (unfold unit_step in *; intros [= ? ?]; lia).
    rewrite He. revert Hf Hopp.
    generalize (cell_at b r c) as p, (cell_at b (r + dr) (c + dc)) as q.
    intros p q Hf Hopp.
    unfold friendly in Hf. unfold opposing in Hopp. unfold crowned, piece_value.
    split; intros ->; destruct Hf as [[? [-> | ->]]|[? [-> | ->]]];
      try discriminate; destruct Hopp as [[? [-> | ->]]|[? [-> | ->]]];
      try discriminate; simpl;
      destruct (r + 2 * dr =? 0), (r + 2 * dr =? 7); simpl; split; try lia; done.
Qed.

Lemma generated_move_material_witness :
  wf_board jump_board /\
  In ((3, 3), (1, 1)) (all_moves jump_board "red") /\
  exists nb,
    apply_move jump_board ((3, 3), (1, 1)) = Ok nb /\
    material jump_board + 5 <= material nb.
Proof.
  assert (wf_board jump_board) as Hwf by (split; reflexivity).
  assert (In ((3, 3), (1, 1)) (all_moves jump_board "red")) as Hin
    by (vm_compute; left; reflexivity).
  split; [exact Hwf|]. split; [exact Hin|].
  destruct (generated_move_material jump_board "red"
              (all_moves jump_board "red") ((3, 3), (1, 1)) Hwf eq_refl Hin)
    as (nb & Hnb & Hred & _).
  exists nb. split; [exact Hnb|].
  destruct (Hred eq_refl) as [_ Hjump]. apply Hjump. reflexivity.
Defined.

(** ** Row objects of the returned board *)

(** The board [apply_move] returns is made of new row objects only: its
    rows are pairwise distinct objects allocated by the call, none of them
    is a row of the input, even when the input shares rows. *)
Theorem heap_apply_move_fresh_rows h bo mv h' nb :
  valid_refs h bo ->
  heap_apply_move h bo mv = Ok (h', nb) ->
  NoDup nb /\
  length nb = length bo /\
  length h' = (length h + length bo)%nat /\
  forall a, In a nb -> (length h <= a < length h')%nat /\ ~ In a bo.
Proof.
  intros Hv. rewrite heap_apply_move_eq by done.
  destruct (apply_move (view h bo) mv) as [B'| |] eqn:E; simpl; try discriminate.
  intros [= <- <-]. apply apply_move_length in E.
  unfold view in E. rewrite length_map in E.
  split; [apply NoDup_ListNoDup, seq_NoDup|].
  split; [by rewrite length_seq|].
  split; [rewrite length_app; lia|].
  intros a Ha. apply in_seq in Ha. split; [rewrite length_app; lia|].
  intros Hin. unfold valid_refs in Hv. rewrite Forall_forall in Hv.
  apply list_elem_of_In, Hv in Hin. lia.
Qed.

Lemma heap_apply_move_fresh_rows_witness :
  valid_refs [empty_row] (replicate 8 0%nat) /\
  exists h' nb,
    heap_apply_move [empty_row] (replicate 8 0%nat) ((0, 0), (1, 1)) = Ok (h', nb) /\
    NoDup nb /\ length nb = 8%nat.
Proof.
  assert (valid_refs [empty_row] (replicate 8 0%nat)) as Hv
    by (unfold valid_refs; simpl; repeat (constructor; [lia|]); constructor).
  split; [exact Hv|].
  eexists _, _. split; [vm_compute; reflexivity|].
  edestruct (heap_apply_move_fresh_rows [empty_row] (replicate 8 0%nat)
               ((0, 0), (1, 1))) as (Hnd & Hlen & _);
    [exact Hv|vm_compute; reflexivity|].
  split; [exact Hnd|exact Hlen].
Defined.

(** ** Sides other than red and black *)

Lemma all_moves_nil_iff b side :
  all_moves b side = [] <-> forall mv, ~ In mv (all_moves b side).
Proof.
  split; [intros -> mv []|].
  destruct (all_moves b side) as [|mv ms]; [done|].
  intros H. destruct (H mv). by left.
Qed.

(** A side string that is neither ['red'] nor ['black'] owns no piece for
    the generator, which returns no move, whereas [find_best_move] searches
    such a side exactly as it searches ['black']. *)
Theorem unknown_side fuel b side depth :
  shape_ok b = true ->
  side <> "red"%string -> side <> "black"%string ->
  get_all_moves b side = Ok [] /\
  find_best_move fuel b side depth = find_best_move fuel b "black" depth.
Proof.
  intros Hs Hr Hb. split.
  - rewrite get_all_moves_ok by done. f_equal.
    apply all_moves_nil_iff. intros mv Hin.
    apply in_all_moves in Hin as (r & c & d & _ & Ho & _).
    apply owned_by_friendly in Ho. unfold friendly in Ho. tauto.
  - unfold find_best_move. apply String.eqb_neq in Hr. by rewrite Hr.
Qed.

Lemma unknown_side_witness :
  get_all_moves initial_board "white" = Ok [] /\
  find_best_move 3 initial_board "white" 2 =
  find_best_move 3 initial_board "black" 2.
Proof.
  apply (unknown_side 3 initial_board "white" 2); [reflexivity| |];
    discriminate.
Defined.

(** ** Boards that are too small *)

Lemma index_only_cases {A : Type} (m : result A) :
  index_only m -> m = IndexError \/ exists a, m = Ok a.
Proof. destruct m; unfold index_only; eauto. done. Qed.

Lemma index_only_bind {A B : Type} (m : result A) (k : A -> result B) :
  index_only m -> (forall a, index_only (k a)) -> index_only (m ≫= k).
Proof. destruct m; simpl; intros Hm Hk; [apply Hk|done|by destruct Hm]. Qed.

Lemma index_only_py_index {A : Type} (l : list A) i : index_only (py_index l i).
Proof.
  unfold py_index. destruct (norm_index _ _); [|done].
  by destruct (l !! n).
Qed.

Lemma index_only_getcell b r c : index_only (getcell b r c).
Proof.
  unfold getcell. apply index_only_bind; auto using index_only_py_index.
Qed.

Lemma index_only_for_each {A S : Type} (xs : list A) (body : S -> A -> result S) acc :
  (forall acc x, index_only (body acc x)) -> index_only (for_each xs body acc).
Proof.
  intros Hb. revert acc. induction xs as [|x xs IH]; intros acc; simpl; [done|].
  apply index_only_bind; auto.
Qed.

Lemma index_only_and_then a m : index_only m -> index_only (and_then a m).
Proof. by destruct a. Qed.

Lemma index_only_possible_moves b r c : index_only (possible_moves_for_piece b r c).
Proof.
  unfold possible_moves_for_piece.
  apply index_only_bind; [apply index_only_getcell|]. intros piece.
  apply index_only_for_each. intros moves [dr dc]. unfold moves_in_direction.
  apply index_only_bind.
  - unfold step_test. apply index_only_and_then, index_only_bind;
      [apply index_only_getcell|done].
  - intros st. apply index_only_bind; [|done].
    unfold jump_test. apply index_only_and_then, index_only_bind;
      [apply index_only_getcell|].
    intros m. apply index_only_and_then, index_only_bind;
      [apply index_only_getcell|].
    intros j. by apply index_only_and_then.
Qed.

(** A loop one of whose iterations raises [IndexError] whatever the
    accumulator, and whose iterations raise nothing else. *)
Lemma for_each_index_error {A S : Type} (xs : list A) (body : S -> A -> result S)
    (x0 : A) acc :
  (forall acc x, index_only (body acc x)) ->
  In x0 xs -> (forall acc, body acc x0 = IndexError) ->
  for_each xs body acc = IndexError.
Proof.
  intros Hb Hin Hx0. revert acc.
  induction xs as [|x xs IH]; intros acc; [done|]. simpl.
  destruct (index_only_cases _ (Hb acc x)) as [->|[acc' Hacc]]; [done|].
  rewrite Hacc. simpl. destruct Hin as [->|Hin]; [|by apply IH].
  rewrite Hx0 in Hacc. discriminate.
Qed.

(** The cell reads of the two nested loops over [range(8)]. *)
Lemma squares_index_error {S : Type} (b : board) (k : S -> Z -> Z -> cell -> result S)
    (r0 c0 : Z) acc :
  (forall acc r c p, index_only (k acc r c p)) ->
  In r0 range8 -> In c0 range8 -> getcell b r0 c0 = IndexError ->
  for_each range8 (fun acc r =>
    for_each range8 (fun acc c => p ← getcell b r c; k acc r c p) acc) acc =
  IndexError.
Proof.
  intros Hk Hr Hc Hget.
  assert (forall acc r c, index_only (p ← getcell b r c; k acc r c p)) as Hbody
    by (intros; apply index_only_bind; auto using index_only_getcell).
  apply (for_each_index_error _ _ r0); [|done|].
  - intros acc' r. by apply index_only_for_each.
  - intros acc'. apply (for_each_index_error _ _ c0); [done..|].
    intros acc''. by rewrite Hget.
Qed.

Lemma too_small_read b :
  too_small b ->
  exists r0 c0, In r0 range8 /\ In c0 range8 /\ getcell b r0 c0 = IndexError.
Proof.
  intros [Hlen|(r & rw & Hr & Hrw & Hlen)].
  - exists (Z.of_nat (length b)), 0.
    split; [apply range8_spec; lia|]. split; [apply range8_spec; lia|].
    unfold getcell, py_index, norm_index.
    destruct (Z.leb_spec 0 (Z.of_nat (length b))); [|lia].
    by rewrite Z.ltb_irrefl.
  - exists (Z.of_nat r), (Z.of_nat (length rw)).
    split; [apply range8_spec; lia|]. split; [apply range8_spec; lia|].
    pose proof (lookup_lt_Some _ _ _ Hrw) as Hlt.
    unfold getcell, py_index.
    rewrite norm_index_in_range by lia. rewrite Nat2Z.id, Hrw. simpl.
    unfold norm_index.
    destruct (Z.leb_spec 0 (Z.of_nat (length rw))); [|lia].
    by rewrite Z.ltb_irrefl.
Qed.

(** On a board with fewer than eight rows, or with fewer than eight cells
    in one of its first eight rows, the generator and the evaluation raise
    [IndexError], and so does every search with a call stack. *)
Theorem too_small_index_error fuel b side depth alpha beta maxi :
  too_small b ->
  get_all_moves b side = IndexError /\
  evaluate b = IndexError /\
  alpha_beta (S fuel) b depth alpha beta maxi = IndexError /\
  find_best_move (S fuel) b side depth = IndexError.
Proof.
  intros Hsmall. destruct (too_small_read b Hsmall) as (r0 & c0 & Hr & Hc & Hget).
  assert (forall side', get_all_moves b side' = IndexError) as Hgen.
  { intros side'. unfold get_all_moves.
    apply (squares_index_error b
             (fun moves r c piece =>
                if owned_by side' piece
                then ms ← possible_moves_for_piece b r c; Ok (moves ++ ms)
                else Ok moves) r0 c0); try done.
    intros acc r c p. destruct (owned_by side' p); [|done].
    apply index_only_bind; [apply index_only_possible_moves|done]. }
  assert (evaluate b = IndexError) as Heval.
  { unfold evaluate.
    by apply (squares_index_error b
                (fun score r c p =>
                   Ok (if p =? 1 then score + 5
                       else if p =? 3 then score + 8
                       else if p =? 2 then score - 5
                       else if p =? 4 then score - 8
                       else score)) r0 c0). }
  assert (forall a' b' maxi', alpha_beta (S fuel) b depth a' b' maxi' = IndexError)
    as Hab.
  { intros a' b' maxi'. simpl. destruct (depth =? 0).
    - by rewrite Heval.
    - by rewrite Hgen. }
  repeat split; try done.
  unfold find_best_move. by rewrite Hab.
Qed.

Lemma too_small_index_error_witness :
  too_small [] /\
  get_all_moves [] "red" = IndexError /\
  evaluate [] = IndexError /\
  alpha_beta 1 [] 2 NegInf PosInf true = IndexError /\
  find_best_move 1 [] "red" 2 = IndexError.
Proof.
  assert (too_small []) as H by (left; simpl; lia).
  split; [exact H|].
  exact (too_small_index_error 0 [] "red" 2 NegInf PosInf true H).
Defined.

(** ** The order of the generated moves *)

Lemma keys_app l1 l2 : keys (l1 ++ l2) = keys l1 ++ keys l2.
Proof. apply map_app. Qed.

Lemma sorted_app (l1 l2 : list Z) :
  StronglySorted Z.lt l1 -> StronglySorted Z.lt l2 ->
  (forall x y, In x l1 -> In y l2 -> x < y) ->
  StronglySorted Z.lt (l1 ++ l2).
Proof.
  intros H1 H2 Hlt. induction H1 as [|x l1 Hs IH Hx]; simpl; [done|].
  constructor.
  - apply IH. intros. apply Hlt; [by right|done].
  - apply List.Forall_app. split; [done|].
    apply List.Forall_forall. intros y Hy. apply Hlt; [by left|done].
Qed.

Section Blocks.
Context {A : Type}.
Variable g : A -> list move.
Variable lo : A -> Z.
Variable w : Z.

(** Blocks of moves whose keys lie in disjoint, increasing intervals. *)
Lemma blocks_bounds xs L H :
  (forall x, In x xs -> forall k, In k (keys (g x)) -> lo x <= k < lo x + w) ->
  (forall x, In x xs -> L <= lo x /\ lo x + w <= H) ->
  forall k, In k (keys (flat_map g xs)) -> L <= k < H.
Proof.
  intros Hb Hx k Hk. unfold keys in Hk.
  apply in_map_iff in Hk as (mv & <- & Hmv).
  apply in_flat_map in Hmv as (x & Hin & Hmv).
  specialize (Hx x Hin).
  assert (In (move_key mv) (keys (g x))) as Hk by (by apply in_map).
  apply (Hb x Hin) in Hk. lia.
Qed.

Lemma blocks_sorted xs :
  (forall x, In x xs -> StronglySorted Z.lt (keys (g x))) ->
  (forall x, In x xs -> forall k, In k (keys (g x)) -> lo x <= k < lo x + w) ->
  StronglySorted (fun x y => lo x + w <= lo y) xs ->
  StronglySorted Z.lt (keys (flat_map g xs)).
Proof.
  intros Hs Hb Hxs. induction Hxs as [|x xs Hxs IH Hx]; simpl; [constructor|].
  rewrite keys_app. apply sorted_app.
  - apply Hs. by left.
  - apply IH; [intros y Hy; apply Hs; by right|].
    intros y Hy k Hk. apply Hb; [by right|done].
  - intros k1 k2 H1 H2.
    apply (Hb x) in H1; [|by left].
    unfold keys in H2. apply in_map_iff in H2 as (mv & <- & Hmv).
    apply in_flat_map in Hmv as (y & Hy & Hmv).
    rewrite List.Forall_forall in Hx. specialize (Hx y Hy).
    assert (In (move_key mv) (keys (g y))) as Hk by (by apply in_map).
    apply (Hb y) in Hk; [|by right]. lia.
Qed.
End Blocks.

Lemma dir_index_unit dr dc :
  unit_step dr -> unit_step dc ->
  0 <= dir_index dr dc <= 3 /\
  dir_index (2 * dr) (2 * dc) = dir_index dr dc.
Proof.
  unfold unit_step, dir_index. intros [-> | ->] [-> | ->]; simpl; lia.
Qed.

Lemma direction_moves_keys b piece r c d :
  unit_step (fst d) -> unit_step (snd d) ->
  StronglySorted Z.lt (keys (direction_moves b piece r c d)) /\
  forall k, In k (keys (direction_moves b piece r c d)) ->
    direction_lo r c d <= k < direction_lo r c d + 2.
Proof.
  destruct d as [dr dc]. simpl. intros Hdr Hdc.
  destruct (dir_index_unit dr dc Hdr Hdc) as [_ Hdouble].
  assert (move_key ((r, c), (r + dr, c + dc)) = direction_lo r c (dr, dc)) as Hstep.
  { unfold move_key, direction_lo. simpl.
    replace (r + dr - r) with dr by lia. replace (c + dc - c) with dc by lia.
    destruct (Z.eqb_spec (Z.abs dr) 2); [unfold unit_step in *; lia|lia]. }
  assert (move_key ((r, c), (r + 2 * dr, c + 2 * dc)) = direction_lo r c (dr, dc) + 1)
    as Hjump.
  { unfold move_key, direction_lo. simpl.
    replace (r + 2 * dr - r) with (2 * dr) by lia.
    replace (c + 2 * dc - c) with (2 * dc) by lia. rewrite Hdouble.
    destruct (Z.eqb_spec (Z.abs (2 * dr)) 2); [lia|unfold unit_step in *; lia]. }
  unfold direction_moves, keys. simpl fst. simpl snd.
  destruct (step_ok _ _ _), (jump_ok _ _ _ _ _ _); cbn [map app];
    rewrite ?Hstep, ?Hjump;
    (split; [repeat constructor; try lia|simpl; intros k Hk; intuition lia]).
Qed.

Lemma directions_blocks piece r c :
  StronglySorted (fun x y => direction_lo r c x + 2 <= direction_lo r c y)
    (directions piece).
Proof.
  unfold directions, direction_lo, dir_index.
  repeat match goal with
         | |- context [if ?x =? ?y then _ else _] => destruct (x =? y)
         end; repeat constructor; simpl; lia.
Qed.

Lemma piece_moves_keys b r c :
  StronglySorted Z.lt (keys (piece_moves b r c)) /\
  forall k, In k (keys (piece_moves b r c)) ->
    (r * 8 + c) * 8 <= k < (r * 8 + c) * 8 + 8.
Proof.
  unfold piece_moves. split.
  - apply (blocks_sorted _ (direction_lo r c) 2).
    + intros d Hd. destruct (directions_unit _ _ Hd).
      by apply direction_moves_keys.
    + intros d Hd. destruct (directions_unit _ _ Hd).
      by apply direction_moves_keys.
    + apply directions_blocks.
  - apply (blocks_bounds _ (direction_lo r c) 2).
    + intros d Hd. destruct (directions_unit _ _ Hd).
      by apply direction_moves_keys.
    + intros d Hd. destruct (directions_unit _ _ Hd) as [Hdr Hdc].
      destruct (dir_index_unit _ _ Hdr Hdc) as [Hi _].
      unfold direction_lo. lia.
Qed.

Lemma all_moves_keys b side : StronglySorted Z.lt (keys (all_moves b side)).
Proof.
  unfold all_moves.
  assert (forall r c,
    StronglySorted Z.lt
      (keys (if owned_by side (cell_at b r c) then piece_moves b r c else [])) /\
    forall k,
      In k (keys (if owned_by side (cell_at b r c) then piece_moves b r c else [])) ->
      (r * 8 + c) * 8 <= k < (r * 8 + c) * 8 + 8) as Hcell.
  { intros r c. destruct (owned_by side (cell_at b r c)).
    - apply piece_moves_keys.
    - split; [constructor|]. intros k []. }
  apply (blocks_sorted _ (fun r => r * 64) 64).
  - intros r _. apply (blocks_sorted _ (fun c => (r * 8 + c) * 8) 8).
    + intros c _. apply Hcell.
    + intros c _. apply Hcell.
    + unfold range8. repeat constructor; lia.
  - intros r _. apply (blocks_bounds _ (fun c => (r * 8 + c) * 8) 8).
    + intros c _. apply Hcell.
    + intros c Hc. apply range8_spec in Hc. lia.
  - unfold range8. repeat constructor; lia.
Qed.

Lemma sorted_keys_NoDup (ms : list move) :
  StronglySorted Z.lt (keys ms) -> List.NoDup ms.
Proof.
  induction ms as [|mv ms IH]; simpl; intros H; [constructor|].
  apply StronglySorted_inv in H as [Hs Hall]. constructor; [|by apply IH].
  intros Hin. rewrite List.Forall_forall in Hall.
  specialize (Hall (move_key mv) (in_map _ _ _ Hin)). lia.
Qed.

(** The generator lists the moves in scan order and lists none twice:
    the origins come in row-major order, for one origin the directions
    come up-left, up-right, down-left, down-right, and for one direction
    the step comes before the jump. *)
Theorem get_all_moves_order b side :
  shape_ok b = true ->
  exists ms,
    get_all_moves b side = Ok ms /\
    StronglySorted Z.lt (map move_key ms) /\
    List.NoDup ms.
Proof.
  intros Hs. exists (all_moves b side).
  split; [by apply get_all_moves_ok|].
  split; [apply all_moves_keys|apply sorted_keys_NoDup, all_moves_keys].
Qed.

Lemma get_all_moves_order_witness :
  shape_ok jump_board = true /\
  exists ms,
    get_all_moves jump_board "red" = Ok ms /\
    StronglySorted Z.lt (map move_key ms) /\ List.NoDup ms.
Proof.
  split; [reflexivity|].
  apply (get_all_moves_order jump_board "red"). reflexivity.
Defined.

(** ** The search theorems at concrete positions *)

Lemma alpha_beta_returns_generated_move_witness :
  alpha_beta 2 initial_board 1 NegInf PosInf true =
    Ok (Fin 16, Some ((0, 0), (1, 1))) /\
  exists ms nb a' b' m',
    get_all_moves initial_board "red" = Ok ms /\
    In ((0, 0), (1, 1)) ms /\
    apply_move initial_board ((0, 0), (1, 1)) = Ok nb /\
    alpha_beta 1 nb 0 a' b' false = Ok (Fin 16, m').
Proof.
  assert (alpha_beta 2 initial_board 1 NegInf PosInf true =
            Ok (Fin 16, Some ((0, 0), (1, 1)))) as H by (vm_compute; reflexivity).
  split; [exact H|].
  exact (proj2 (alpha_beta_returns_generated_move 2 initial_board 1 NegInf PosInf
                  true (Fin 16) ((0, 0), (1, 1)) H)).
Defined.

Lemma alpha_beta_no_move_is_loss_witness :
  3 <> 0 /\
  alpha_beta 4 forced_loss_board 3 NegInf PosInf true = Ok (NegInf, None) /\
  NegInf = NegInf.
Proof.
  assert (alpha_beta 4 forced_loss_board 3 NegInf PosInf true = Ok (NegInf, None))
    as H by (vm_compute; reflexivity).
  assert (3 <> 0) as Hd by lia.
  split; [exact Hd|]. split; [exact H|].
  exact (alpha_beta_no_move_is_loss 4 forced_loss_board 3 NegInf PosInf true
           NegInf Hd H).
Defined.

Lemma negative_depth_returns_sentinel_witness :
  -1 < 0 /\
  alpha_beta 4 forced_loss_board (-1) NegInf PosInf true = Ok (NegInf, None) /\
  is_sentinel NegInf.
Proof.
  assert (alpha_beta 4 forced_loss_board (-1) NegInf PosInf true = Ok (NegInf, None))
    as H by (vm_compute; reflexivity).
  assert (-1 < 0) as Hd by lia.
  split; [exact Hd|]. split; [exact H|].
  exact (negative_depth_returns_sentinel 4 forced_loss_board (-1) NegInf PosInf
           true NegInf None Hd H).
Defined.

Lemma alpha_beta_window_sound_witness :
  score_lt (Fin 0) (Fin 10) /\
  minimax 2 initial_board 1 true = Ok (Fin 16) /\
  exists v' m,
    alpha_beta 2 initial_board 1 (Fin 0) (Fin 10) true = Ok (v', m) /\
    (score_le (Fin 10) v' -> score_le v' (Fin 16)).
Proof.
  assert (minimax 2 initial_board 1 true = Ok (Fin 16)) as H
    by (vm_compute; reflexivity).
  split; [reflexivity|]. split; [exact H|].
  destruct (alpha_beta_window_sound 2 initial_board 1 (Fin 0) (Fin 10) true
              (Fin 16) eq_refl H) as (v' & m & Hab & _ & _ & Hhigh).
  exists v', m. split; assumption.
Defined.

(** ** The chosen move against an unpruned search *)

Section PlainSearchLoops.
Variable rec_ab : board -> Z -> score -> score -> bool -> result search_result.
Variable rec_mm : board -> Z -> bool -> result score.
Hypothesis rec_within :
  forall nb d alpha beta maxi v,
    score_lt alpha beta -> rec_mm nb d maxi = Ok v ->
    exists v' m, rec_ab nb d alpha beta maxi = Ok (v', m) /\ within alpha beta v v'.
Variables (b : board) (depth : Z).

Lemma plain_max_cons mv rest value best :
  plain_max rec_mm b depth (mv :: rest) value best =
  (new_b ← apply_move b mv;
   child_val ← rec_mm new_b (depth - 1) false;
   let improved := score_ltb value (child_val : score) in
   plain_max rec_mm b depth rest
     (if improved then child_val else value)
     (if improved then Some mv else best)).
Proof. reflexivity. Qed.

Lemma plain_min_cons mv rest value best :
  plain_min rec_mm b depth (mv :: rest) value best =
  (new_b ← apply_move b mv;
   child_val ← rec_mm new_b (depth - 1) true;
   let improved := score_ltb (child_val : score) value in
   plain_min rec_mm b depth rest
     (if improved then child_val else value)
     (if improved then Some mv else best)).
Proof. reflexivity. Qed.

Lemma plain_max_top moves best r :
  plain_max rec_mm b depth moves PosInf best = Ok r -> r = (PosInf, best).
Proof.
  induction moves as [|mv rest IH]; [by intros [= <-]|].
  rewrite plain_max_cons.
  destruct (apply_move b mv) as [nb| |]; simpl; try discriminate.
  destruct (rec_mm nb (depth - 1) false) as [c| |]; simpl; try discriminate.
  apply IH.
Qed.

Lemma plain_min_bottom moves best r :
  plain_min rec_mm b depth moves NegInf best = Ok r -> r = (NegInf, best).
Proof.
  induction moves as [|mv rest IH]; [by intros [= <-]|].
  rewrite plain_min_cons.
  destruct (apply_move b mv) as [nb| |]; simpl; try discriminate.
  destruct (rec_mm nb (depth - 1) true) as [c| |]; simpl; try discriminate.
  assert (score_ltb c NegInf = false) as -> by (by destruct c).
  apply IH.
Qed.

Lemma within_upper_window w top c c' :
  score_lt w top -> within w top c c' -> score_le c top ->
  score_ltb w c' = score_ltb w c /\ score_max w c' = score_max w c.
Proof.
  intros Hw Hc Htop. split; [|score_lia].
  destruct (score_ltb w c') eqn:E1, (score_ltb w c) eqn:E2; try done;
    exfalso; score_lia.
Qed.

Lemma within_lower_window w bot c c' :
  score_lt bot w -> within bot w c c' -> score_le bot c ->
  score_ltb c' w = score_ltb c w /\ score_min w c' = score_min w c.
Proof.
  intros Hw Hc Hbot. split; [|score_lia].
  destruct (score_ltb c' w) eqn:E1, (score_ltb c w) eqn:E2; try done;
    exfalso; score_lia.
Qed.
End PlainSearchLoops.

Lemma score_max_absorb w c : score_max w (score_max w c) = score_max w c.
Proof. score_lia. Qed.

Lemma score_min_absorb w c : score_min w (score_min w c) = score_min w c.
Proof. score_lia. Qed.

Lemma score_le_PosInf c : score_le c PosInf.
Proof. by destruct c. Qed.

Lemma score_le_NegInf c : score_le NegInf c.
Proof. by destruct c. Qed.

Section RootLoops.
Variable rec_ab : board -> Z -> score -> score -> bool -> result search_result.
Variable rec_mm : board -> Z -> bool -> result score.
Hypothesis rec_within :
  forall nb d alpha beta maxi v,
    score_lt alpha beta -> rec_mm nb d maxi = Ok v ->
    exists v' m, rec_ab nb d alpha beta maxi = Ok (v', m) /\ within alpha beta v v'.
Variables (b : board) (depth : Z).

(** With [beta] at [inf] and [alpha] following [value], the maximizing loop
    keeps the same value and the same move as the unpruned loop. *)
Lemma max_loop_root moves w best r :
  score_lt w PosInf ->
  plain_max rec_mm b depth moves w best = Ok r ->
  max_loop rec_ab b depth PosInf moves w best w = Ok r.
Proof.
  revert w best. induction moves as [|mv rest IH]; intros w best Hw; [done|].
  rewrite plain_max_cons, max_loop_cons.
  destruct (apply_move b mv) as [nb| |]; simpl; try discriminate.
  destruct (rec_mm nb (depth - 1) false) as [c| |] eqn:Ec; simpl; try discriminate.
  destruct (rec_within nb (depth - 1) w PosInf false c Hw Ec) as (c' & m & -> & Hc).
  simpl.
  destruct (within_upper_window w PosInf c c' Hw Hc (score_le_PosInf c))
    as [Hflag Hmax].
  change (if score_ltb w c' then c' else w) with (score_max w c').
  change (if score_ltb w c then c else w) with (score_max w c).
  rewrite Hflag, Hmax, score_max_absorb.
  destruct (score_max w c) as [|z|].
  - by apply IH.
  - by apply IH.
  - intros H. apply (plain_max_top rec_mm) in H. by subst r.
Qed.

Lemma min_loop_root moves w best r :
  score_lt NegInf w ->
  plain_min rec_mm b depth moves w best = Ok r ->
  min_loop rec_ab b depth NegInf moves w best w = Ok r.
Proof.
  revert w best. induction moves as [|mv rest IH]; intros w best Hw; [done|].
  rewrite plain_min_cons, min_loop_cons.
  destruct (apply_move b mv) as [nb| |]; simpl; try discriminate.
  destruct (rec_mm nb (depth - 1) true) as [c| |] eqn:Ec; simpl; try discriminate.
  destruct (rec_within nb (depth - 1) NegInf w true c Hw Ec) as (c' & m & -> & Hc).
  simpl.
  destruct (within_lower_window w NegInf c c' Hw Hc (score_le_NegInf c))
    as [Hflag Hmin].
  change (if score_ltb c' w then c' else w) with (score_min w c').
  change (if score_ltb c w then c else w) with (score_min w c).
  rewrite Hflag, Hmin, score_min_absorb.
  destruct (score_min w c) as [|z|].
  - intros H. apply (plain_min_bottom rec_mm) in H. by subst r.
  - by apply IH.
  - by apply IH.
Qed.
End RootLoops.

Section PlainTotality.
Variable rec : board -> Z -> bool -> result score.
Variables (b : board) (depth : Z) (side : string).
Hypothesis b_wf : wf_board b.
Hypothesis rec_total :
  forall nb maxi, wf_board nb -> exists v, rec nb (depth - 1) maxi = Ok v.

Lemma plain_max_total moves u best :
  (forall mv, In mv moves -> In mv (all_moves b side)) ->
  exists r, plain_max rec b depth moves u best = Ok r.
Proof.
  revert u best. induction moves as [|mv rest IH]; intros u best Hin.
  - by eexists.
  - rewrite plain_max_cons.
    destruct (apply_generated_move b side mv b_wf) as (_ & -> & Hw & _);
      [apply Hin; by left|].
    simpl. destruct (rec_total (moved_board b mv) false Hw) as [c ->]. simpl.
    apply IH. intros mv' H. apply Hin. by right.
Qed.

Lemma plain_min_total moves u best :
  (forall mv, In mv moves -> In mv (all_moves b side)) ->
  exists r, plain_min rec b depth moves u best = Ok r.
Proof.
  revert u best. induction moves as [|mv rest IH]; intros u best Hin.
  - by eexists.
  - rewrite plain_min_cons.
    destruct (apply_generated_move b side mv b_wf) as (_ & -> & Hw & _);
      [apply Hin; by left|].
    simpl. destruct (rec_total (moved_board b mv) true Hw) as [c ->]. simpl.
    apply IH. intros mv' H. apply Hin. by right.
Qed.
End PlainTotality.

#[local] Arguments plain_max : simpl never.
#[local] Arguments plain_min : simpl never.

(** Pruning changes neither the score nor the move at the root: whenever
    the unpruned search returns a score and a move, the alpha-beta search
    started with the full window returns the same pair; and on a
    well-formed board, for a depth that is not negative and a deep enough
    call stack, the unpruned search does return. *)
Theorem alpha_beta_same_move fuel b depth maxi :
  (forall r, plain_search fuel b depth maxi = Ok r ->
     alpha_beta fuel b depth NegInf PosInf maxi = Ok r) /\
  (wf_board b -> 0 <= depth -> (Z.to_nat depth < fuel)%nat ->
     exists r, plain_search fuel b depth maxi = Ok r).
Proof.
  split.
  - destruct fuel as [|fuel]; [discriminate|]. intros r. simpl.
    destruct (depth =? 0); [done|].
    destruct (get_all_moves b _) as [[|mv moves]| |]; simpl; try done.
    destruct maxi.
    + apply (max_loop_root _ _ (alpha_beta_within fuel)). done.
    + apply (min_loop_root _ _ (alpha_beta_within fuel)). done.
  - intros Hwf Hd Hfuel. destruct fuel as [|fuel]; [lia|]. simpl.
    destruct (Z.eqb_spec depth 0) as [->|Hne].
    + rewrite evaluate_ok by apply Hwf. simpl. eauto.
    + rewrite get_all_moves_ok by apply Hwf. simpl.
      destruct (all_moves b _) as [|mv moves] eqn:Em; [eauto|].
      assert (forall nb maxi', wf_board nb ->
                exists v, minimax fuel nb (depth - 1) maxi' = Ok v) as Hrec
        by (intros; apply minimax_total; [done|lia|lia]).
      destruct maxi.
      * apply (plain_max_total _ b depth "red" Hwf Hrec). intros. by rewrite Em.
      * apply (plain_min_total _ b depth "black" Hwf Hrec). intros. by rewrite Em.
Qed.

Lemma alpha_beta_same_move_witness :
  wf_board jump_board /\
  exists r,
    plain_search 4 jump_board 3 true = Ok r /\
    alpha_beta 4 jump_board 3 NegInf PosInf true = Ok r.
Proof.
  assert (wf_board jump_board) as Hwf by (split; reflexivity).
  split; [exact Hwf|].
  destruct (alpha_beta_same_move 4 jump_board 3 true) as [Hsame Hret].
  destruct Hret as [r Hr]; [exact Hwf|lia|simpl; lia|].
  exists r. split; [exact Hr|exact (Hsame r Hr)].
Defined.

(** ** Drawing the board *)

Lemma draw_board_ok b canvas :
  shape_ok b = true -> draw_board b canvas = Ok (canvas ++ board_items b).
Proof.
  intros Hs. unfold draw_board.
  rewrite (for_each_squares _ (fun acc r c => acc ++ cell_items b r c)).
  - by rewrite (fold_left_nested_flat_map (fun r c => cell_items b r c)).
  - intros acc r c Hrc. rewrite getcell_ok by done. simpl.
    by rewrite <- app_assoc.
Qed.

Lemma count_items_app P l1 l2 :
  count_items P (l1 ++ l2) = count_items P l1 + count_items P l2.
Proof. unfold count_items. rewrite List.filter_app, length_app. lia. Qed.

Lemma count_items_flat_map {A : Type} P (h : A -> list canvas_item) xs acc :
  fold_left (fun a x => a + count_items P (h x)) xs acc =
  acc + count_items P (flat_map h xs).
Proof.
  revert acc. induction xs as [|x xs IH]; intros acc; simpl.
  - unfold count_items. simpl. lia.
  - rewrite IH, count_items_app. lia.
Qed.

Lemma fold_left_ext_in {A B : Type} (f g : A -> B -> A) xs acc :
  (forall a x, f a x = g a x) -> fold_left f xs acc = fold_left g xs acc.
Proof.
  intros H. revert acc. induction xs as [|x xs IH]; intros acc; simpl; [done|].
  by rewrite H, IH.
Qed.

Lemma count_board_items P (k : cell -> Z) b :
  shape_ok b = true ->
  (forall r c p, count_items P (draw_square r c :: draw_piece r c p) = k p) ->
  count_items P (board_items b) = board_sum k b.
Proof.
  intros Hs Hk. unfold board_items.
  rewrite <- (Z.add_0_l (count_items _ _)).
  rewrite <- (count_items_flat_map P
                (fun r => flat_map (fun c => cell_items b r c) range8)).
  rewrite <- (Z.add_0_l (board_sum k b)), <- (board_sum_range8 k b 0 Hs).
  apply fold_left_ext_in. intros a r.
  rewrite <- (count_items_flat_map P (fun c => cell_items b r c)).
  apply fold_left_ext_in. intros a' c. unfold cell_items. by rewrite Hk.
Qed.

Lemma board_sum_ones b : shape_ok b = true -> board_sum (fun _ => 1) b = 64.
Proof.
  intros Hs.
  assert (forall rw : row, row_sum (fun _ => 1) rw = Z.of_nat (length rw)) as Hrow
    by (induction rw as [|p rw IH]; simpl length; simpl row_sum; lia).
  apply shape_ok_spec in Hs as [Hlen Hrows].
  assert (board_sum (fun _ => 1) b = Z.of_nat (length b) * 8) as ->; [|lia].
  clear Hlen. induction Hrows as [|rw b Hrw _ IH]; simpl length; simpl board_sum;
    [done|].
  rewrite Hrow, Hrw, IH. lia.
Qed.

(** On a board of eight rows of eight cells [draw_board] adds 64 squares,
    one disc for each occupied cell and one K for each king, after what
    the canvas already held.  A disc is among the added items exactly for
    the occupied cells: it lies 5 pixels inside the square of its cell and
    is red for the tags 1 and 3 and gray for any other tag. *)
Theorem draw_board_items b canvas :
  shape_ok b = true ->
  exists items,
    draw_board b canvas = Ok (canvas ++ items) /\
    count_items is_square items = 64 /\
    count_items is_disc items = occupied b /\
    count_items is_mark items = king_count b /\
    forall x1 y1 x2 y2 fill,
      In (Oval x1 y1 x2 y2 fill) items <->
      exists r c,
        on_board r c /\ cell_at b r c <> 0 /\
        x1 = c * 60 + 5 /\ y1 = r * 60 + 5 /\
        x2 = c * 60 + 55 /\ y2 = r * 60 + 55 /\
        fill = if is_red (cell_at b r c) then "red"%string else "gray"%string.
Proof.
  intros Hs. exists (board_items b).
  split; [by apply draw_board_ok|].
  split; [|split; [|split]].
  - rewrite (count_board_items _ (fun _ => 1)); [by apply board_sum_ones|done|].
    intros r c p. unfold draw_piece, count_items. simpl.
    destruct (p =? 0); simpl; [done|]. by destruct ((p =? 3) || (p =? 4)).
  - unfold occupied. apply count_board_items; [done|].
    intros r c p. unfold draw_piece, count_items. simpl.
    destruct (p =? 0); simpl; [done|]. by destruct ((p =? 3) || (p =? 4)).
  - unfold king_count. apply count_board_items; [done|].
    intros r c p. unfold draw_piece, count_items. simpl.
    destruct (Z.eqb_spec p 0) as [->|?]; simpl; [done|].
    by destruct ((p =? 3) || (p =? 4)).
  - intros x1 y1 x2 y2 fill. unfold board_items. rewrite in_flat_map. split.
    + intros (r & Hr & H). apply in_flat_map in H as (c & Hc & H).
      apply range8_spec in Hr, Hc. exists r, c.
      unfold cell_items, draw_square, draw_piece, cell_size in H.
      destruct H as [H|H]; [discriminate|].
      destruct (Z.eqb_spec (cell_at b r c) 0) as [?|Hne]; simpl in H; [done|].
      destruct H as [H|H].
      * injection H as <- <- <- <- <-. change (60 / 2) with 30.
        unfold on_board. repeat split; try done; lia.
      * destruct ((cell_at b r c =? 3) || (cell_at b r c =? 4)); [|done].
        destruct H as [H|[]]. discriminate.
    + intros (r & c & [Hr Hc] & Hne & -> & -> & -> & -> & ->).
      exists r. split; [by apply range8_spec|].
      apply in_flat_map. exists c. split; [by apply range8_spec|].
      unfold cell_items, draw_square, draw_piece, cell_size. right.
      destruct (Z.eqb_spec (cell_at b r c) 0) as [?|_]; [done|]. simpl. left.
      change (60 / 2) with 30. f_equal; lia.
Qed.

Lemma draw_board_items_witness :
  shape_ok initial_board = true /\
  exists items,
    draw_board initial_board [] = Ok items /\
    count_items is_disc items = occupied initial_board /\
    count_items is_mark items = king_count initial_board.
Proof.
  split; [reflexivity|].
  destruct (draw_board_items initial_board [] eq_refl)
    as (items & Hdraw & _ & Hdisc & Hmark & _).
  exists items. repeat split; assumption.
Defined.

Lemma square_drawn b r c :
  on_board r c -> In (draw_square r c) (board_items b).
Proof.
  intros [Hr Hc]. unfold board_items.
  apply in_flat_map. exists r. split; [by apply range8_spec|].
  apply in_flat_map. exists c. split; [by apply range8_spec|].
  by left.
Qed.

(** [highlight_move] adds two yellow frames of width 3 after what the
    canvas held, the origin's first, and for a move between on-board
    squares each frame has the corners of the square [draw_board] drew for
    that cell. *)
Theorem highlight_move_frames b r1 c1 r2 c2 canvas :
  shape_ok b = true -> on_board r1 c1 -> on_board r2 c2 ->
  exists items fill1 fill2,
    draw_board b [] = Ok items /\
    In (FilledRectangle (c1 * 60) (r1 * 60) (c1 * 60 + 60) (r1 * 60 + 60) fill1)
       items /\
    In (FilledRectangle (c2 * 60) (r2 * 60) (c2 * 60 + 60) (r2 * 60 + 60) fill2)
       items /\
    highlight_move ((r1, c1), (r2, c2)) canvas =
      canvas ++
      [OutlinedRectangle (c1 * 60) (r1 * 60) (c1 * 60 + 60) (r1 * 60 + 60) "yellow" 3;
       OutlinedRectangle (c2 * 60) (r2 * 60) (c2 * 60 + 60) (r2 * 60 + 60) "yellow" 3].
Proof.
  intros Hs Ho Hd. eexists (board_items b), _, _.
  split; [by rewrite draw_board_ok|].
  split; [exact (square_drawn b r1 c1 Ho)|].
  split; [exact (square_drawn b r2 c2 Hd)|].
  unfold highlight_move, cell_size. simpl. by rewrite <- app_assoc.
Qed.

Lemma highlight_move_frames_witness :
  shape_ok initial_board = true /\
  highlight_move ((0, 0), (1, 1)) [] =
    [OutlinedRectangle 0 0 60 60 "yellow" 3;
     OutlinedRectangle 60 60 120 120 "yellow" 3].
Proof.
  split; [reflexivity|].
  destruct (highlight_move_frames initial_board 0 0 1 1 [] eq_refl)
    as (items & fill1 & fill2 & _ & _ & _ & Hframes);
    [unfold on_board; lia|unfold on_board; lia|].
  exact Hframes.
Defined.

(** ** Colours *)

Lemma color_cases p :
  (is_red p = true /\ is_black p = false /\ 1 <= p <= 4) \/
  (is_red p = false /\ is_black p = true /\ 1 <= p <= 4) \/
  (is_red p = false /\ is_black p = false /\ ~ 1 <= p <= 4).
Proof.
  unfold is_red, is_black.
  destruct (Z.eqb_spec p 1), (Z.eqb_spec p 2), (Z.eqb_spec p 3), (Z.eqb_spec p 4);
    simpl; lia.
Qed.

(** [same_color] is symmetric and transitive, relates a tag to itself
    exactly when the tag is one of 1..4, and never relates anything to the
    empty tag. *)
Theorem same_color_partial_equivalence a b c :
  same_color a b = same_color b a /\
  (same_color a b = true -> same_color b c = true -> same_color a c = true) /\
  (same_color a a = true <-> 1 <= a <= 4) /\
  same_color a 0 = false.
Proof.
  unfold same_color.
  change (is_red 0) with false. change (is_black 0) with false.
  destruct (color_cases a) as [(-> & -> & ?)|[(-> & -> & ?)|(-> & -> & ?)]],
    (color_cases b) as [(-> & -> & ?)|[(-> & -> & ?)|(-> & -> & ?)]],
    (color_cases c) as [(-> & -> & ?)|[(-> & -> & ?)|(-> & -> & ?)]];
    simpl; repeat split; intros; try done; tauto.
Qed.

Lemma swap_board_shape b : shape_ok b = true -> shape_ok (swap_board b) = true.
Proof.
  rewrite !shape_ok_spec. unfold swap_board. intros [Hlen Hrows]. split.
  - by rewrite length_map.
  - apply Forall_fmap. eapply Forall_impl; [exact Hrows|].
    intros rw Hrw. simpl. by rewrite length_map.
Qed.

Lemma material_swap b : material (swap_board b) = - material b.
Proof.
  unfold material, swap_board.
  assert (forall rw : row, row_sum piece_value (map swap_color rw) =
                           - row_sum piece_value rw) as Hrow.
  { induction rw as [|p rw IH]; simpl; [done|]. rewrite IH.
    assert (piece_value (swap_color p) = - piece_value p) as ->; [|lia].
    unfold piece_value, swap_color.
    destruct (Z.eqb_spec p 1), (Z.eqb_spec p 2), (Z.eqb_spec p 3),
      (Z.eqb_spec p 4); subst; simpl; try done; try lia.
    destruct (Z.eqb_spec p 1), (Z.eqb_spec p 2), (Z.eqb_spec p 3),
      (Z.eqb_spec p 4); lia. }
  induction b as [|rw b IH]; simpl; [done|]. rewrite Hrow, IH. lia.
Qed.

(** The evaluation is antisymmetric in the two sides: exchanging red and
    black pieces, men for men and kings for kings, negates the score. *)
Theorem evaluate_swap_sides b :
  shape_ok b = true ->
  exists s, evaluate b = Ok s /\ evaluate (swap_board b) = Ok (- s).
Proof.
  intros Hs. exists (material b).
  split; [by apply evaluate_ok|].
  rewrite evaluate_ok by (by apply swap_board_shape).
  by rewrite material_swap.
Qed.

Lemma evaluate_swap_sides_witness :
  shape_ok initial_board = true /\
  exists s,
    evaluate initial_board = Ok s /\ evaluate (swap_board initial_board) = Ok (- s).
Proof.
  split; [reflexivity|].
  apply (evaluate_swap_sides initial_board). reflexivity.
Defined.

(** ** Counts per side along generated moves *)

(** A generated move keeps every piece of the side that moves, and takes
    exactly one piece of the other side when it is a jump and none when it
    is a step. *)
Theorem generated_move_counts b side ms mv :
  wf_board b -> get_all_moves b side = Ok ms -> In mv ms ->
  exists nb,
    apply_move b mv = Ok nb /\
    (side = "red"%string ->
     red_count nb = red_count b /\
     black_count nb = black_count b - (if is_jump mv then 1 else 0)) /\
    (side = "black"%string ->
     black_count nb = black_count b /\
     red_count nb = red_count b - (if is_jump mv then 1 else 0)).
Proof.
  intros Hwf Hms Hin. pose proof Hwf as [Hs _].
  rewrite get_all_moves_ok in Hms by done. injection Hms as <-.
  destruct (apply_generated_move b side mv Hwf Hin) as (Hmv & Ha & _).
  exists (moved_board b mv). split; [done|].
  unfold red_count, black_count. rewrite !moved_board_sum by done.
  apply in_all_moves_legal in Hin; [|done].
  destruct Hin as (r & c & dr & dc & [[Hl ->]|[Hl ->]]).
  - destruct Hl as (Ho & Hf & Hdir & Hd & He).
    destruct (direction_set_unit _ _ _ Hdir) as [Hdr Hdc].
    assert (is_jump ((r, c), (r + dr, c + dc)) = false) as ->.
    { unfold is_jump. simpl. apply Z.eqb_neq. unfold unit_step in *. lia. }
    simpl. rewrite decide_False by (unfold unit_step in *; intros [= ? ?]; lia).
    rewrite He. revert Hf. generalize (cell_at b r c) as p. intros p Hf.
    unfold friendly in Hf. unfold crowned.
    split; intros ->; destruct Hf as [[? [-> | ->]]|[? [-> | ->]]];
      try discriminate; simpl;
      destruct (r + dr =? 0), (r + dr =? 7); simpl; split; try lia; done.
  - destruct Hl as (Ho & Hf & Hdir & Hm & Hopp & Hd & He).
    destruct (direction_set_unit _ _ _ Hdir) as [Hdr Hdc].
    assert (is_jump ((r, c), (r + 2 * dr, c + 2 * dc)) = true) as ->.
    { unfold is_jump. simpl. apply Z.eqb_eq. unfold unit_step in *. lia. }
    rewrite midpoint_of_jump. simpl.
    rewrite decide_False by (unfold unit_step in *; intros [= ? ?]; lia).
    rewrite He. revert Hf Hopp.
    generalize (cell_at b r c) as p, (cell_at b (r + dr) (c + dc)) as q.
    intros p q Hf Hopp.
    unfold friendly in Hf. unfold opposing in Hopp. unfold crowned.
    split; intros ->; destruct Hf as [[? [-> | ->]]|[? [-> | ->]]];
      try discriminate; destruct Hopp as [[? [-> | ->]]|[? [-> | ->]]];
      try discriminate; simpl;
      destruct (r + 2 * dr =? 0), (r + 2 * dr =? 7); simpl; split; try lia; done.
Qed.

Lemma generated_move_counts_witness :
  wf_board jump_board /\
  In ((3, 3), (1, 1)) (all_moves jump_board "red") /\
  exists nb,
    apply_move jump_board ((3, 3), (1, 1)) = Ok nb /\
    red_count nb = red_count jump_board /\
    black_count nb = black_count jump_board - 1.
Proof.
  assert (wf_board jump_board) as Hwf by (split; reflexivity).
  assert (In ((3, 3), (1, 1)) (all_moves jump_board "red")) as Hin
    by (vm_compute; left; reflexivity).
  split; [exact Hwf|]. split; [exact Hin|].
  destruct (generated_move_counts jump_board "red"
              (all_moves jump_board "red") ((3, 3), (1, 1)) Hwf eq_refl Hin)
    as (nb & Hnb & Hred & _).
  exists nb. split; [exact Hnb|]. exact (Hred eq_refl).
Defined.

(** ** The range of the scores *)

Lemma material_abs_bound b : wf_board b -> Z.abs (material b) <= 8 * 64.
Proof.
  intros [Hs _].
  pose proof (material_le_red b) as Hred.
  pose proof (material_ge_black b) as Hblack.
  assert (0 <= red_count b <= 64 * 1) as Hr.
  { apply board_sum_shape_bound; [done|]. intros p. destruct (is_red p); lia. }
  assert (0 <= black_count b <= 64 * 1) as Hb.
  { apply board_sum_shape_bound; [done|]. intros p. destruct (is_black p); lia. }
  lia.
Qed.

Lemma material_in_range b : wf_board b -> score_in_range (Fin (material b)).
Proof.
  intros Hwf. right. exists (material b). split; [done|].
  by apply material_abs_bound.
Qed.

(** Every score the search returns from a well-formed board is one of the
    two sentinels or an integer within 512 of zero, whatever the depth, the
    window and the side. *)
Theorem alpha_beta_score_range fuel :
  forall b depth alpha beta maxi v m,
    wf_board b ->
    alpha_beta fuel b depth alpha beta maxi = Ok (v, m) ->
    score_in_range v.
Proof.
  induction fuel as [|fuel IH]; intros b depth alpha beta maxi v m Hwf;
    [discriminate|].
  simpl. destruct (depth =? 0).
  - rewrite evaluate_ok by apply Hwf. simpl. intros [= <- _].
    by apply material_in_range.
  - rewrite get_all_moves_ok by apply Hwf. simpl.
    destruct (all_moves b _) as [|mv0 moves] eqn:Em.
    + intros [= <- _]. left. destruct maxi; [by left|by right].
    + destruct maxi; intros H.
      * apply max_loop_result in H.
        destruct H as [[-> _]|(_ & mv & nb & a' & m' & Hin & _ & Ha & Hr)];
          [left; by left|].
        rewrite <- Em in Hin.
        destruct (apply_generated_move b "red" mv Hwf Hin) as (_ & Ha' & Hw & _).
        rewrite Ha' in Ha. injection Ha as <-. by apply IH in Hr.
      * apply min_loop_result in H.
        destruct H as [[-> _]|(_ & mv & nb & b' & m' & Hin & _ & Ha & Hr)];
          [left; by right|].
        rewrite <- Em in Hin.
        destruct (apply_generated_move b "black" mv Hwf Hin) as (_ & Ha' & Hw & _).
        rewrite Ha' in Ha. injection Ha as <-. by apply IH in Hr.
Qed.

Lemma alpha_beta_score_range_witness :
  wf_board initial_board /\
  alpha_beta 3 initial_board 2 NegInf PosInf true =
    Ok (Fin 16, Some ((0, 0), (1, 1))) /\
  score_in_range (Fin 16).
Proof.
  assert (alpha_beta 3 initial_board 2 NegInf PosInf true =
            Ok (Fin 16, Some ((0, 0), (1, 1)))) as H by (vm_compute; reflexivity).
  split; [exact initial_board_wf|]. split; [exact H|].
  exact (alpha_beta_score_range 3 initial_board 2 NegInf PosInf true (Fin 16)
           (Some ((0, 0), (1, 1))) initial_board_wf H).
Defined.
